(** * The LangGraph name-remembering agent: state, nodes and graph

    A shallow embedding of [src/langgraph_agent/graph.py] and
    [src/langgraph_agent/db_utils.py].

    Python values are modelled by [pyval], exceptions by the error monad
    [result], dictionaries by stdpp's [gmap], the SQLite [users] table by a
    [gmap] from the primary key to the name.  The language model
    ([agent_runnable]) and LangGraph's prebuilt [ToolNode] are parameters of
    the graph. *)

From Stdlib Require Import ZArith.
From stdpp Require Import base option list strings pretty gmap.

Local Open Scope string_scope.
Local Open Scope list_scope.
Local Open Scope nat_scope.

(** ** Python values and exceptions *)

(** The scalar values a JSON tool-call argument or a state field can hold. *)
Inductive pyval : Type :=
  | PNone
  | PBool (b : bool)
  | PInt (z : Z)
  | PStr (s : string).

#[global] Instance pyval_eq_dec : EqDecision pyval.
Proof. solve_decision. Defined.

(** [bool(v)]: the test performed by [if v:]. *)
Definition truthy (v : pyval) : bool :=
  match v with
  | PNone => false
  | PBool b => b
  | PInt z => negb (Z.eqb z 0)
  | PStr s => negb (String.eqb s EmptyString)
  end.

(** [str(v)]: what an f-string placeholder [{v}] expands to. *)
Definition py_str (v : pyval) : string :=
  match v with
  | PNone => "None"
  | PBool true => "True"
  | PBool false => "False"
  | PInt z => pretty z
  | PStr s => s
  end.

Inductive exn : Type :=
  | IndexError
  | AttributeError (attr : string)
  | KeyError (key : string)
  | ValueError (msg : string)
  | Raised (msg : string)          (* failure of an external collaborator *)
  | GraphRecursionError.

Inductive result (A : Type) : Type :=
  | Ok (a : A)
  | Err (e : exn).
Arguments Ok {A} a.
Arguments Err {A} e.

#[global] Instance result_ret : MRet result := fun A a => Ok a.
#[global] Instance result_bind : MBind result := fun A B f m =>
  match m with
  | Ok a => f a
  | Err e => Err e
  end.

(** [l[-k]] for [k >= 1]: Python raises [IndexError] out of range. *)
Definition neg_index {A} (l : list A) (k : nat) : result A :=
  if decide (1 ≤ k ≤ length l)%nat
  then match l !! (length l - k) with
       | Some x => Ok x
       | None => Err IndexError
       end
  else Err IndexError.

(** [d[key]] on a dictionary: [KeyError] when the key is absent. *)
Definition getitem {V} (d : gmap string V) (key : string) : result V :=
  match d !! key with
  | Some v => Ok v
  | None => Err (KeyError key)
  end.

(** ** Messages *)

(** A LangChain [ToolCall] dictionary: [name], [args], [id]. *)
Record ToolCall : Type := mkToolCall {
  tc_name : string;
  tc_args : gmap string pyval;
  tc_id : option string;
}.

Inductive message : Type :=
  | HumanMessage (content : string)
  | SystemMessage (content : string)
  | AIMessage (content : string) (tool_calls : list ToolCall) (id : option string)
  | ToolMessage (content : string) (tool_call_id : option string).

(** The attribute [m.tool_calls]: only [AIMessage] declares it. *)
Definition tool_calls_of (m : message) : result (list ToolCall) :=
  match m with
  | AIMessage _ tcs _ => Ok tcs
  | _ => Err (AttributeError "tool_calls")
  end.

(** ** 1. The state *)

Record AgentState : Type := mkState {
  messages : list message;
  user_name : pyval;
  user_id : string;
}.

(** The reducer annotated on [messages]: [lambda x, y: x + y if y else x]. *)
Definition messages_reducer (x y : list message) : list message :=
  match y with
  | [] => x
  | _ :: _ => x ++ y
  end.

(** The partial dictionary a node returns; an absent key is [None]. *)
Record Update : Type := mkUpdate {
  upd_messages : option (list message);
  upd_user_name : option pyval;
  upd_user_id : option string;
}.

Definition no_update : Update := mkUpdate None None None.
Definition messages_update (ms : list message) : Update := mkUpdate (Some ms) None None.
Definition user_name_update (v : pyval) : Update := mkUpdate None (Some v) None.

(** Merging a node's update into the state: [messages] goes through its
    reducer, the two plain fields are overwritten when the key is present. *)
Definition apply_update (st : AgentState) (u : Update) : AgentState :=
  {| messages := match upd_messages u with
                 | Some y => messages_reducer (messages st) y
                 | None => messages st
                 end;
     user_name := default (user_name st) (upd_user_name u);
     user_id := default (user_id st) (upd_user_id u) |}.

(** ** The durable store ([db_utils.py]) *)

(** The [users] table: [user_id TEXT PRIMARY KEY] to [name TEXT]. *)
Abbreviation UserDb := (gmap string string).

(** [SELECT name FROM users WHERE user_id = ?], then [fetchone]. *)
Definition get_user_name (db : UserDb) (uid : string) : pyval :=
  match db !! uid with
  | Some name => PStr name
  | None => PNone
  end.

(** [INSERT OR REPLACE INTO users (user_id, name) VALUES (?, ?)]. *)
Definition persist_user_name_to_db (uid name : string) (db : UserDb) : UserDb :=
  <[uid := name]> db.

(** ** 2. The tool *)

Definition remember_name_tool : string := "remember_user_name_external".

Definition remember_user_name_external (uid name : string) (db : UserDb)
  : string * UserDb :=
  ("OK, I've saved " +:+ name +:+ " to your main profile.",
   persist_user_name_to_db uid name db).

(** ** The system prompt *)

Definition nl : string := String (Ascii.ascii_of_nat 10) EmptyString.

Definition base_prompt : string :=
  "You are a helpful assistant. " +:+
  "Your goal is to learn about the user's name and use it in the converation.".

Definition known_name_suffix (name : string) : string :=
  " You know the user's name is " +:+ name +:+
  ". Address them by their name " +:+ name.

Definition unknown_name_suffix : string :=
  " You do not know the user's name yet. " +:+
  nl +:+ nl +:+ "**CRITICAL INSTRUCTION:** When the user provides their name " +:+
  "(e.g., 'Hi, my name is Bob'), " +:+
  "you MUST immediately call the 'remember_user_name_external' tool " +:+
  "with the exact name they provided. This is your highest priority " +:+
  "task when a name is given. Do not answer their other queries " +:+
  "in the same turn; just call the tool.".

Definition get_system_prompt (name : pyval) : string :=
  let system_prompt := base_prompt in
  if truthy name
  then system_prompt +:+ known_name_suffix (py_str name)
  else system_prompt +:+ unknown_name_suffix.

(** Whether [sub] occurs in [s]. *)
Definition contains (sub s : string) : bool :=
  match String.index 0 sub s with
  | Some _ => true
  | None => false
  end.

(** ** Nodes that only read and write the state *)

(** [tool_call['args']['user_id'] = v]. *)
Definition set_arg (tc : ToolCall) (key : string) (v : pyval) : ToolCall :=
  {| tc_name := tc_name tc; tc_args := <[key := v]> (tc_args tc); tc_id := tc_id tc |}.

(** The list [ms] with its last element replaced by [m]. *)
Definition set_last (ms : list message) (m : message) : list message :=
  <[length ms - 1 := m]> ms.

(** [update_tool_call_with_user_id].  The assignment into [tool_call['args']]
    writes through the dictionary that [state["messages"][-1]] holds, so the
    node yields both the state as it is after that write and the update it
    returns. *)
Definition update_tool_call_with_user_id (st : AgentState)
  : result (AgentState * Update) :=
  last_message ← neg_index (messages st) 1;
  tcs ← tool_calls_of last_message;
  match last_message, tcs with
  | AIMessage content _ id, tool_call :: rest =>
      let tool_call' := set_arg tool_call "user_id" (PStr (user_id st)) in
      let st' := {| messages := set_last (messages st)
                                  (AIMessage content (tool_call' :: rest) id);
                    user_name := user_name st;
                    user_id := user_id st |} in
      let new_message := AIMessage content [tool_call'] id in
      Ok (st', messages_update [new_message])
  | _, _ => Ok (st, no_update)
  end.

(** [update_user_name_in_state]. *)
Definition update_user_name_in_state (st : AgentState) : result Update :=
  last_message ← neg_index (messages st) 2;
  tcs ← tool_calls_of last_message;
  match tcs with
  | tool_call :: _ =>
      if decide (tc_name tool_call = remember_name_tool)
      then name ← getitem (tc_args tool_call) "name";
           Ok (user_name_update name)
      else Ok no_update
  | [] => Ok no_update
  end.

(** [generate_agent_state]: the session bootstrap. *)
Definition generate_agent_state (db : UserDb) (uid user_message : string)
  : AgentState :=
  let user_name := get_user_name db uid in
  {| messages := [HumanMessage user_message];
     user_name := user_name;
     user_id := uid |}.

(** The state after a node has run: what the node left of the state it was
    given, merged with the update it returned. *)
Definition enrich_step (st : AgentState) : result AgentState :=
  '(st', upd) ← update_tool_call_with_user_id st;
  Ok (apply_update st' upd).

Definition sync_step (st : AgentState) : result AgentState :=
  upd ← update_user_name_in_state st;
  Ok (apply_update st upd).

(** The first tool call of the latest record, when there is one. *)
Definition latest_tool_call (st : AgentState) : option ToolCall :=
  match last (messages st) with
  | Some (AIMessage _ (tc :: _) _) => Some tc
  | _ => None
  end.

(** A record whose first tool call has received [user_id]. *)
Definition inject_user_id (uid : string) (m : message) : message :=
  match m with
  | AIMessage content (tc :: rest) id =>
      AIMessage content (set_arg tc "user_id" (PStr uid) :: rest) id
  | _ => m
  end.

Definition with_user_name (st : AgentState) (v : pyval) : AgentState :=
  {| messages := messages st; user_name := v; user_id := user_id st |}.

(** The messages as ENRICH leaves them before its update is merged: the latest
    record rewritten in place, every earlier record as it was. *)
Definition after_injection (st : AgentState) : list message :=
  match last (messages st) with
  | Some m => set_last (messages st) (inject_user_id (user_id st) m)
  | None => messages st
  end.

(** ** 3. Graph nodes and 4. graph edges *)

Inductive node : Type :=
  | agent
  | update_tool_call
  | tools
  | update_state_with_name
  | END.

#[global] Instance node_eq_dec : EqDecision node.
Proof. solve_decision. Defined.

(** The two answers of the router: ["tools"] and [END]. *)
Inductive route : Type :=
  | route_tools
  | route_end.

(** Modelled from the spec: [tools_condition] is LangGraph's prebuilt router,
    which is not part of the sources.  It follows the ROUTE state: inspect the
    latest record; if it is an assistant record carrying a tool call, answer
    ["tools"], otherwise [END]. *)
Definition tools_condition (st : AgentState) : result route :=
  match last (messages st) with
  | None => Err (ValueError "No messages found in input state")
  | Some (AIMessage _ (_ :: _) _) => Ok route_tools
  | Some _ => Ok route_end
  end.

(** The path map of [add_conditional_edges]:
    [{"tools": "update_tool_call", END: END}]. *)
Definition conditional_edge (r : route) : node :=
  match r with
  | route_tools => update_tool_call
  | route_end => END
  end.

(** What the language model answers: always an assistant record. *)
Record Reply : Type := mkReply {
  reply_content : string;
  reply_tool_calls : list ToolCall;
  reply_id : option string;
}.

Definition reply_message (r : Reply) : message :=
  AIMessage (reply_content r) (reply_tool_calls r) (reply_id r).

(** The state once the reply [r] has been appended by the reasoning node. *)
Definition replied (st : AgentState) (r : Reply) : AgentState :=
  mkState (messages st ++ [reply_message r]) (user_name st) (user_id st).

Inductive outcome : Type :=
  | Finished
  | Failed (at_node : node) (e : exn).

(** One run of the compiled graph: how it ended, the nodes it entered in
    order, and the state and durable store it left behind. *)
Record Run : Type := mkRun {
  run_outcome : outcome;
  run_trace : list node;
  run_state : AgentState;
  run_db : UserDb;
}.

(** LangGraph's default bound on the number of node executions. *)
Definition recursion_limit : nat := 25.

Section Graph.

(** [agent_runnable.invoke]: the language model with the tool bound. *)
Variable agent_runnable : list message → result Reply.

(** [tool_executor = ToolNode(tools)]: reads the state, may write the
    durable store, and returns the tool-result records to append. *)
Variable tool_executor : AgentState → UserDb → result (list message * UserDb).

(** [call_model]. *)
Definition call_model (st : AgentState) : result Update :=
  let msgs := messages st in
  let name := user_name st in
  let system_prompt := get_system_prompt name in
  let all_messages := SystemMessage system_prompt :: msgs in
  response ← agent_runnable all_messages;
  Ok (messages_update [reply_message response]).

(** Running one node and merging what it returns into the state. *)
Definition run_node (n : node) (st : AgentState) (db : UserDb)
  : result (AgentState * UserDb) :=
  match n with
  | agent =>
      upd ← call_model st;
      Ok (apply_update st upd, db)
  | update_tool_call =>
      st' ← enrich_step st;
      Ok (st', db)
  | tools =>
      '(out, db') ← tool_executor st db;
      Ok (apply_update st (messages_update out), db')
  | update_state_with_name =>
      st' ← sync_step st;
      Ok (st', db)
  | END => Ok (st, db)
  end.

(** The edges added to [builder]. *)
Definition next_node (n : node) (st' : AgentState) : result node :=
  match n with
  | agent => r ← tools_condition st'; Ok (conditional_edge r)
  | update_tool_call => Ok tools
  | tools => Ok update_state_with_name
  | update_state_with_name => Ok agent
  | END => Ok END
  end.

Definition graph_step (n : node) (st : AgentState) (db : UserDb)
  : result (node * AgentState * UserDb) :=
  '(st', db') ← run_node n st db;
  n' ← next_node n st';
  Ok (n', st', db').

(** Running the graph from node [n].  An exception raised by a node ends
    the run and reaches the caller; the state is the one the failing node
    was entered with. *)
Fixpoint run_from (fuel : nat) (n : node) (st : AgentState) (db : UserDb) : Run :=
  match n with
  | END => mkRun Finished [] st db
  | _ =>
      match fuel with
      | O => mkRun (Failed n GraphRecursionError) [] st db
      | S fuel' =>
          match graph_step n st db with
          | Err e => mkRun (Failed n e) [n] st db
          | Ok (n', st', db') =>
              let r := run_from fuel' n' st' db' in
              mkRun (run_outcome r) (n :: run_trace r) (run_state r) (run_db r)
          end
      end
  end.

(** [app.invoke(initial_state)]: the entry point is ["agent"]. *)
Definition invoke (st : AgentState) (db : UserDb) : Run :=
  run_from recursion_limit agent st db.

End Graph.

(** ** The tool node *)

(** Modelled from the spec: LangGraph's [ToolNode] is not part of the
    sources.  It follows the EXECUTE state: invoke the tool interface with
    the arguments of the latest assistant record's tool calls and return each
    return value as a tool-result record; a call that cannot be made fails
    the turn. *)
Definition invoke_tool (tc : ToolCall) (db : UserDb) : result (message * UserDb) :=
  if decide (tc_name tc = remember_name_tool)
  then match tc_args tc !! "user_id", tc_args tc !! "name" with
       | Some (PStr uid), Some (PStr name) =>
           let '(out, db') := remember_user_name_external uid name db in
           Ok (ToolMessage out (tc_id tc), db')
       | _, _ => Err (Raised "invalid tool arguments")
       end
  else Err (Raised "unknown tool").

(** Modelled from the spec: the tool calls of one record are served in order,
    each on the store the previous one left. *)
Fixpoint invoke_tools (tcs : list ToolCall) (db : UserDb)
  : result (list message * UserDb) :=
  match tcs with
  | [] => Ok ([], db)
  | tc :: tcs' =>
      '(m, db1) ← invoke_tool tc db;
      '(ms, db2) ← invoke_tools tcs' db1;
      Ok (m :: ms, db2)
  end.

(** Modelled from the spec: [ToolNode(tools)], reading the tool calls of the
    latest record of the state. *)
Definition tool_node (st : AgentState) (db : UserDb)
  : result (list message * UserDb) :=
  last_message ← neg_index (messages st) 1;
  tcs ← tool_calls_of last_message;
  invoke_tools tcs db.

(** ** Sample data: the runs of [main] *)

Definition john_call : ToolCall :=
  mkToolCall remember_name_tool {[ "name" := PStr "John" ]} (Some "call_1").

(** A scripted model: asks for the tool when the name is unknown and the
    user has just spoken, answers in plain text otherwise. *)
Definition scripted_model (all_messages : list message) : result Reply :=
  match all_messages, last all_messages with
  | SystemMessage p :: _, Some (HumanMessage _) =>
      if decide (p = get_system_prompt PNone)
      then Ok (mkReply EmptyString [john_call] (Some "run-1"))
      else Ok (mkReply "Your name is on file." [] (Some "run-2"))
  | _, _ => Ok (mkReply "Nice to meet you, John." [] (Some "run-3"))
  end.

Definition failing_executor (st : AgentState) (db : UserDb)
  : result (list message * UserDb) :=
  Err (Raised "database is locked").

Definition run1_state : AgentState :=
  generate_agent_state ∅ "user_John" "Hi, my name is John.".

(** The state the ENRICH node is entered with in the first run. *)
Definition enrich_state : AgentState :=
  {| messages := [HumanMessage "Hi, my name is John.";
                  AIMessage EmptyString [john_call] (Some "run-1")];
     user_name := PNone;
     user_id := "user_John" |}.

(** A tool call in which the model made up a user identifier. *)
Definition spoofed_call : ToolCall :=
  mkToolCall remember_name_tool
    (<["user_id" := PStr "user_Jane"]> {[ "name" := PStr "John" ]})
    (Some "call_1").

Definition spoofed_state : AgentState :=
  {| messages := [HumanMessage "Hi, my name is John.";
                  AIMessage EmptyString [spoofed_call] (Some "run-1")];
     user_name := PNone;
     user_id := "user_John" |}.

(** The state the SYNC node is entered with in the first run. *)
Definition john_call_enriched : ToolCall :=
  set_arg john_call "user_id" (PStr "user_John").

Definition executed_state : AgentState :=
  {| messages := [HumanMessage "Hi, my name is John.";
                  AIMessage EmptyString [john_call_enriched] (Some "run-1");
                  AIMessage EmptyString [john_call_enriched] (Some "run-1");
                  ToolMessage "OK, I've saved John to your main profile."
                    (Some "call_1")];
     user_name := PNone;
     user_id := "user_John" |}.

(** A remember-name call from which the model left out the name. *)
Definition nameless_call : ToolCall :=
  mkToolCall remember_name_tool ∅ (Some "call_2").

Definition nameless_state : AgentState :=
  {| messages := [AIMessage EmptyString [nameless_call] (Some "run-1");
                  ToolMessage "Error: name is required" (Some "call_2")];
     user_name := PNone;
     user_id := "user_John" |}.

Definition no_call_state : AgentState :=
  {| messages := [HumanMessage "Hi."; HumanMessage "Anyone there?"];
     user_name := PNone;
     user_id := "user_John" |}.

(** The durable store after the first run. *)
Definition john_db : UserDb := {[ "user_John" := "John" ]}.

(** The states the second and third run start from. *)
Definition run2_state : AgentState :=
  generate_agent_state john_db "user_John" "What is my name?".

(** ** The database file and its cleanup ([db_utils.py]) *)

(** The database file as the functions of [db_utils.py] see it: [None] when the
    [users] table does not exist (no file yet, or a database without the
    table), [Some t] when it exists with rows [t]. *)
Abbreviation UserDbFile := (option UserDb).

Definition no_such_table : exn := Raised "no such table: users".

(** One call into SQLite.  [busy] is the error the engine itself raises for
    this call, if any (the database is locked, the file cannot be read);
    otherwise the statement runs. *)
Definition sqlite_call {A} (busy : option exn) (statement : result A) : result A :=
  match busy with
  | Some e => Err e
  | None => statement
  end.

(** [create_user_database]: [CREATE TABLE IF NOT EXISTS users (...)]. *)
Definition create_user_database (busy : option exn) (f : UserDbFile)
  : result UserDbFile :=
  sqlite_call busy
    (Ok match f with
        | Some t => Some t
        | None => Some ∅
        end).

(** [get_user_name] run against a database file: the [SELECT] raises when the
    table is missing. *)
Definition get_user_name_from (busy : option exn) (f : UserDbFile) (uid : string)
  : result pyval :=
  sqlite_call busy
    match f with
    | Some t => Ok (get_user_name t uid)
    | None => Err no_such_table
    end.

(** [persist_user_name_to_db] run against a database file: the [INSERT] raises
    when the table is missing. *)
Definition persist_user_name_to (busy : option exn) (uid name : string)
    (f : UserDbFile) : result UserDbFile :=
  sqlite_call busy
    match f with
    | Some t => Ok (Some (persist_user_name_to_db uid name t))
    | None => Err no_such_table
    end.

Definition USER_DB : string := "user_data.db".
Definition CHECKPOINT_DB : string := "lg_user_state.db".
Definition ALL_DBS : list string := [USER_DB; CHECKPOINT_DB].

(** The directory: every path that exists, with what [os.remove] does to it.
    [None] is a file that [os.remove] removes; [Some e] is a path it refuses
    with the error [e], such as a directory or a protected file. *)
Abbreviation Directory := (gmap string (option exn)).

Definition os_path_exists (fs : Directory) (p : string) : bool :=
  bool_decide (is_Some (fs !! p)).

(** [os.remove(p)] raises when there is no such path and when the path cannot
    be removed. *)
Definition os_remove (p : string) (fs : Directory) : result Directory :=
  match fs !! p with
  | None => Err (Raised "FileNotFoundError")
  | Some (Some e) => Err e
  | Some None => Ok (delete p fs)
  end.

(** [if os.path.exists(p): os.remove(p)]. *)
Definition remove_if_exists (p : string) (fs : Directory) : result Directory :=
  if os_path_exists fs p then os_remove p fs else Ok fs.

(** [cleanup_db]. *)
Fixpoint cleanup_db (db_files : list string) (fs : Directory) : result Directory :=
  match db_files with
  | [] => Ok fs
  | db_file :: rest =>
      fs1 ← remove_if_exists db_file fs;
      fs2 ← remove_if_exists (db_file +:+ "-shm") fs1;
      fs3 ← remove_if_exists (db_file +:+ "-wal") fs2;
      cleanup_db rest fs3
  end.

(** The guarded removals of [cleanup_db], one path after the other. *)
Fixpoint remove_each (paths : list string) (fs : Directory) : result Directory :=
  match paths with
  | [] => Ok fs
  | p :: rest => fs1 ← remove_if_exists p fs; remove_each rest fs1
  end.

(** The paths [cleanup_db] is after for one database file. *)
Definition db_paths (db_file : string) : list string :=
  [db_file; db_file +:+ "-shm"; db_file +:+ "-wal"].

(** ** The session-state tools of the ADK agent ([agent.py]) *)

(** [tool_context.state], as a dictionary. *)
Abbreviation ToolState := (gmap string pyval).

(** [get_name]. *)
Definition get_name (state : ToolState) : pyval :=
  let name := default PNone (state !! "user:name") in
  if truthy name then name else PStr "I don't know your name.".

(** [remember_name]. *)
Definition remember_name (name : string) (state : ToolState) : string * ToolState :=
  ("I will remember your name as " +:+ name +:+ ".",
   <["user:name" := PStr name]> state).

(** ** The shape of a run *)

(** The edges of the graph between nodes that are entered: the two plain
    edges, the loop back to the agent, and the tool branch of the
    conditional edge. *)
Definition follows (a b : node) : bool :=
  match a, b with
  | agent, update_tool_call => true
  | update_tool_call, tools => true
  | tools, update_state_with_name => true
  | update_state_with_name, agent => true
  | _, _ => false
  end.

(** A model that is out of service. *)
Definition failing_model (all_messages : list message) : result Reply :=
  Err (Raised "model unavailable").

(** A directory holding both databases, a write-ahead log and a stranger, and
    one in which the name of the checkpoint database is taken by a directory. *)
Definition sample_dir : Directory :=
  {[ "user_data.db" := None; "lg_user_state.db" := None;
     "lg_user_state.db-wal" := None; "notes.txt" := None ]}.

Definition blocked_dir : Directory :=
  {[ "user_data.db" := None;
     "lg_user_state.db" := Some (Raised "IsADirectoryError") ]}.

(** ** The tool node with the library's error handling *)

Definition error_text (e : exn) : string :=
  match e with
  | IndexError => "IndexError"
  | AttributeError attr => "AttributeError: " +:+ attr
  | KeyError key => "KeyError: " +:+ key
  | ValueError msg => "ValueError: " +:+ msg
  | Raised msg => msg
  | GraphRecursionError => "GraphRecursionError"
  end.

(** [ToolNode(tools)] as the library runs it when, as in the sources, its error
    handling is left at the default: an exception raised while the tool call
    is served does not leave the node.  It is reported as the content of the
    tool-result record, and the durable store is as it was. *)
Definition report_errors
    (executor : AgentState → UserDb → result (list message * UserDb))
    (st : AgentState) (db : UserDb) : result (list message * UserDb) :=
  match executor st db with
  | Ok out => Ok out
  | Err e =>
      Ok ([ToolMessage ("Error: " +:+ error_text e) (latest_tool_call st ≫= tc_id)],
          db)
  end.

(** A session with no message at all, one of a single message, and one whose
    latest record is a plain reply. *)
Definition empty_state : AgentState := mkState [] PNone "user_John".

Definition short_state : AgentState :=
  mkState [HumanMessage "Hi."] PNone "user_John".

Definition plain_reply_state : AgentState :=
  mkState [HumanMessage "Hi."; AIMessage "Hello!" [] (Some "run-0")] PNone "user_John".

(** ** Basic facts about indexing and merging *)

Lemma neg_index_last {A} (l : list A) :
  neg_index l 1 = match last l with
                  | Some x => Ok x
                  | None => Err IndexError
                  end.
Proof.
  unfold neg_index. rewrite last_lookup.
  destruct l as [|a l]; [reflexivity|].
  rewrite decide_True by (simpl; lia).
  replace (length (a :: l) - 1) with (pred (length (a :: l))) by (simpl; lia).
  reflexivity.
Qed.

Lemma neg_index_app_r {A} (l l' : list A) k :
  1 ≤ k ≤ length l' → neg_index (l ++ l') k = neg_index l' k.
Proof.
  intros Hk. unfold neg_index. rewrite length_app.
  rewrite !decide_True by lia.
  rewrite lookup_app_r by lia.
  by replace (length l + length l' - k - length l) with (length l' - k) by lia.
Qed.

Lemma last_snoc_split {A} (l : list A) x :
  last l = Some x → ∃ l', l = l' ++ [x].
Proof.
  intros H. destruct l as [|a l] using rev_ind; [discriminate|].
  rewrite last_snoc in H. injection H as ->. eauto.
Qed.

Lemma set_last_snoc (ms : list message) m m' :
  set_last (ms ++ [m]) m' = ms ++ [m'].
Proof.
  unfold set_last. rewrite length_app. simpl.
  replace (length ms + 1 - 1) with (length ms + 0) by lia.
  rewrite insert_app_r. reflexivity.
Qed.

Lemma messages_reducer_app x y : messages_reducer x y = x ++ y.
Proof. destruct y; simpl; [by rewrite app_nil_r | reflexivity]. Qed.

(** What ENRICH computes on a state whose latest record carries a tool call. *)
Lemma update_tool_call_snoc ms c tc rest i name uid :
  update_tool_call_with_user_id
    (mkState (ms ++ [AIMessage c (tc :: rest) i]) name uid) =
  Ok (mkState (ms ++ [AIMessage c (set_arg tc "user_id" (PStr uid) :: rest) i])
              name uid,
      messages_update [AIMessage c [set_arg tc "user_id" (PStr uid)] i]).
Proof.
  unfold update_tool_call_with_user_id. simpl.
  rewrite neg_index_last, last_snoc. simpl.
  by rewrite set_last_snoc.
Qed.

Lemma enrich_step_snoc ms c tc rest i name uid :
  enrich_step (mkState (ms ++ [AIMessage c (tc :: rest) i]) name uid) =
  Ok (mkState (ms ++ [AIMessage c (set_arg tc "user_id" (PStr uid) :: rest) i;
                      AIMessage c [set_arg tc "user_id" (PStr uid)] i])
              name uid).
Proof.
  unfold enrich_step. rewrite update_tool_call_snoc. simpl.
  unfold apply_update. simpl. by rewrite <- app_assoc.
Qed.

(** ** ENRICH *)

(** Claim C1.  Whenever the latest message carries at least one tool call,
    ENRICH succeeds and, in the state it yields, the first tool call of the
    latest message maps ["user_id"] to the state's own [user_id], whatever the
    model had put (or not put) under that key; the same holds of the message
    the node returns. *)
Theorem enrich_injects_user_id (st : AgentState) (tc : ToolCall) :
  latest_tool_call st = Some tc →
  ∃ st' upd m tc',
    update_tool_call_with_user_id st = Ok (st', upd) ∧
    upd_messages upd = Some [m] ∧
    tool_calls_of m = Ok [tc'] ∧
    latest_tool_call (apply_update st' upd) = Some tc' ∧
    tc_args tc' !! "user_id" = Some (PStr (user_id st)) ∧
    tc' = set_arg tc "user_id" (PStr (user_id st)).
Proof.
  unfold latest_tool_call. intros H.
  destruct (last (messages st)) as [m|] eqn:Hlast; [|discriminate].
  destruct m as [| |c tcs i|]; try discriminate.
  destruct tcs as [|tc0 rest]; [discriminate|]. injection H as ->.
  destruct (last_snoc_split _ _ Hlast) as [ms Hms].
  destruct st as [msgs name uid]. simpl in *. subst msgs.
  rewrite update_tool_call_snoc.
  eexists _, _, _, (set_arg tc "user_id" (PStr uid)).
  split; [reflexivity|]. simpl.
  rewrite <- app_assoc, last_app. simpl.
  repeat split. apply lookup_insert_eq.
Qed.

Lemma enrich_injects_user_id_witness :
  ∃ st' upd tc',
    update_tool_call_with_user_id spoofed_state = Ok (st', upd) ∧
    latest_tool_call (apply_update st' upd) = Some tc' ∧
    tc_args tc' !! "user_id" = Some (PStr "user_John").
Proof.
  destruct (enrich_injects_user_id spoofed_state spoofed_call eq_refl)
    as (st' & upd & m & tc' & H1 & _ & _ & H2 & H3 & _).
  exists st', upd, tc'. exact (conj H1 (conj H2 H3)).
Defined.

(** Claim C2 fails as stated: on the state ENRICH is entered with in the
    first run, the message count is not unchanged (it goes from 2 to 3). *)
Lemma enrich_keeps_count_cex :
  ∃ st2, enrich_step enrich_state = Ok st2 ∧
         length (messages enrich_state) = 2 ∧
         length (messages st2) = 3.
Proof. eexists. split; [reflexivity|]. split; reflexivity. Qed.

(** Claim C2, amended.  The reducer of [messages] concatenates, so ENRICH
    appends the enriched copy (same content and id, carrying the first tool
    call only) instead of replacing the latest assistant record: the count
    grows by exactly one and the copy is the latest record.  The earlier
    record keeps its position and, the injection being done in place on its
    first tool call, it carries the injected [user_id] too, so no un-enriched
    copy remains; the records before it are untouched. *)
Theorem enrich_appends_copy (st : AgentState) c tc rest i :
  last (messages st) = Some (AIMessage c (tc :: rest) i) →
  let tc' := set_arg tc "user_id" (PStr (user_id st)) in
  let n := length (messages st) in
  ∃ st2,
    enrich_step st = Ok st2 ∧
    length (messages st2) = S n ∧
    messages st2 !! n = Some (AIMessage c [tc'] i) ∧
    messages st2 !! (n - 1) = Some (AIMessage c (tc' :: rest) i) ∧
    take (n - 1) (messages st2) = take (n - 1) (messages st) ∧
    tc_args tc' !! "user_id" = Some (PStr (user_id st)).
Proof.
  intros Hlast tc' n.
  destruct (last_snoc_split _ _ Hlast) as [ms Hms].
  destruct st as [msgs name uid]. simpl in *. subst msgs n tc'.
  rewrite enrich_step_snoc. eexists. split; [reflexivity|]. simpl.
  rewrite !length_app. simpl.
  replace (length ms + 1 - 1) with (length ms) by lia.
  split; [lia|].
  split.
  { rewrite lookup_app_r by lia.
    by replace (length ms + 1 - length ms) with 1 by lia. }
  split.
  { rewrite lookup_app_r by lia. by rewrite Nat.sub_diag. }
  split; [|apply lookup_insert_eq].
  by rewrite !take_app_length.
Qed.

Lemma enrich_appends_copy_witness :
  ∃ st2,
    enrich_step enrich_state = Ok st2 ∧
    length (messages st2) = 3 ∧
    messages st2 !! 2 = Some (AIMessage EmptyString [john_call_enriched] (Some "run-1")) ∧
    messages st2 !! 1 = Some (AIMessage EmptyString [john_call_enriched] (Some "run-1")).
Proof.
  destruct (enrich_appends_copy enrich_state EmptyString john_call [] (Some "run-1") eq_refl)
    as (st2 & H1 & H2 & H3 & H4 & _).
  exists st2. exact (conj H1 (conj H2 (conj H3 H4))).
Defined.

(** ** SYNC *)

Lemma apply_no_update st : apply_update st no_update = st.
Proof. by destruct st. Qed.

(** In the graph SYNC is entered after ENRICH and the tool node.  Once the tool
    node has appended its result record, the second-to-last record is the copy
    ENRICH made: an assistant record carrying exactly one tool call. *)
Lemma sync_input_has_one_call (st st2 : AgentState) c tc rest i (m : message) :
  last (messages st) = Some (AIMessage c (tc :: rest) i) →
  enrich_step st = Ok st2 →
  neg_index (messages (apply_update st2 (messages_update [m]))) 2 =
  Ok (AIMessage c [set_arg tc "user_id" (PStr (user_id st))] i).
Proof.
  intros Hlast Hstep.
  destruct (last_snoc_split _ _ Hlast) as [ms Hms].
  destruct st as [msgs name uid]. simpl in *. subst msgs.
  rewrite enrich_step_snoc in Hstep. injection Hstep as <-. simpl.
  rewrite <- app_assoc. by rewrite neg_index_app_r by (simpl; lia).
Qed.



(** Where there is no ["name"] argument to set, or no assistant record to
    inspect, SYNC raises. *)
Example sync_missing_name_raises :
  sync_step nameless_state = Err (KeyError "name").
Proof. reflexivity. Qed.

Example sync_on_human_record_raises :
  sync_step no_call_state = Err (AttributeError "tool_calls").
Proof. reflexivity. Qed.

(** ** Bootstrap *)

(** Claim C4.  Bootstrap returns a state with exactly one human record holding
    the message, the given [user_id], and as [user_name] the stored name when
    the durable store has a record for the identifier, [None] when it has
    none. *)
Theorem bootstrap_state (db : UserDb) (uid user_message : string) :
  let st := generate_agent_state db uid user_message in
  messages st = [HumanMessage user_message] ∧
  user_id st = uid ∧
  (∀ name, db !! uid = Some name → user_name st = PStr name) ∧
  (db !! uid = None → user_name st = PNone).
Proof.
  simpl. unfold get_user_name. repeat split.
  - by intros name ->.
  - by intros ->.
Qed.

Lemma bootstrap_state_witness :
  user_name (generate_agent_state john_db "user_John" "What is my name?") = PStr "John" ∧
  user_name (generate_agent_state john_db "user_Jane" "Do you know my name?") = PNone.
Proof.
  split.
  - exact (proj1 (proj2 (proj2 (bootstrap_state john_db "user_John" "What is my name?")))
             "John" eq_refl).
  - exact (proj2 (proj2 (proj2 (bootstrap_state john_db "user_Jane" "Do you know my name?")))
             eq_refl).
Defined.

(** ** The steps of the graph *)

Section GraphFacts.

Variable agent_runnable : list message → result Reply.
Variable tool_executor : AgentState → UserDb → result (list message * UserDb).

Lemma call_model_Ok st upd :
  call_model agent_runnable st = Ok upd →
  ∃ r, agent_runnable
         (SystemMessage (get_system_prompt (user_name st)) :: messages st) = Ok r ∧
       upd = messages_update [reply_message r].
Proof.
  unfold call_model. destruct (agent_runnable _) as [r|e]; simpl; [|discriminate].
  intros [= <-]. eauto.
Qed.

(** The two ways ENRICH can succeed. *)
Lemma enrich_step_Ok st st' :
  enrich_step st = Ok st' →
  (∃ ms c tc rest i,
     messages st = ms ++ [AIMessage c (tc :: rest) i] ∧
     st' = mkState
             (ms ++ [AIMessage c (set_arg tc "user_id" (PStr (user_id st)) :: rest) i;
                     AIMessage c [set_arg tc "user_id" (PStr (user_id st))] i])
             (user_name st) (user_id st)) ∨
  (∃ c i, last (messages st) = Some (AIMessage c [] i) ∧ st' = st).
Proof.
  intros H. destruct (last (messages st)) as [m|] eqn:Hlast.
  - destruct (last_snoc_split _ _ Hlast) as [ms Hms].
    destruct st as [msgs name uid]. simpl in *. subst msgs.
    destruct m as [| |c [|tc rest] i|].
    + unfold enrich_step, update_tool_call_with_user_id in H. simpl in H.
      rewrite neg_index_last, last_snoc in H. discriminate.
    + unfold enrich_step, update_tool_call_with_user_id in H. simpl in H.
      rewrite neg_index_last, last_snoc in H. discriminate.
    + right. exists c, i. split; [done|].
      unfold enrich_step, update_tool_call_with_user_id in H. simpl in H.
      rewrite neg_index_last, last_snoc in H. simpl in H.
      injection H as <-. reflexivity.
    + left. rewrite enrich_step_snoc in H. injection H as <-.
      by exists ms, c, tc, rest, i.
    + unfold enrich_step, update_tool_call_with_user_id in H. simpl in H.
      rewrite neg_index_last, last_snoc in H. discriminate.
  - unfold enrich_step, update_tool_call_with_user_id in H.
    rewrite neg_index_last, Hlast in H. discriminate.
Qed.

Lemma sync_step_Ok st st' :
  sync_step st = Ok st' →
  messages st' = messages st ∧ user_id st' = user_id st.
Proof.
  unfold sync_step.
  destruct (update_user_name_in_state st) as [upd|e] eqn:E; simpl; [|discriminate].
  intros [= <-]. revert E. unfold update_user_name_in_state.
  destruct (neg_index _ 2) as [m|]; simpl; [|discriminate].
  destruct (tool_calls_of m) as [[|tc tcs]|]; simpl; try discriminate.
  - by intros [= <-].
  - case_decide; [|by intros [= <-]].
    destruct (getitem _ _); simpl; [|discriminate]. by intros [= <-].
Qed.

Lemma run_node_Ok_next n st db st' db' n' :
  graph_step agent_runnable tool_executor n st db = Ok (n', st', db') →
  run_node agent_runnable tool_executor n st db = Ok (st', db').
Proof.
  unfold graph_step.
  destruct (run_node _ _ n st db) as [[st1 db1]|e]; simpl; [|discriminate].
  destruct (next_node n st1); simpl; [|discriminate]. congruence.
Qed.

End GraphFacts.

(** Claim C5 fails as stated: the ENRICH step of the first run does not leave
    the prior messages as a prefix of its merged result, because it writes
    [user_id] into the latest of them. *)
Lemma enrich_rewrites_latest_record_cex :
  ∃ st2,
    graph_step scripted_model tool_node update_tool_call enrich_state ∅
      = Ok (tools, st2, ∅) ∧
    ¬ (messages enrich_state `prefix_of` messages st2).
Proof.
  exists (mkState [HumanMessage "Hi, my name is John.";
                   AIMessage EmptyString [john_call_enriched] (Some "run-1");
                   AIMessage EmptyString [john_call_enriched] (Some "run-1")]
                  PNone "user_John").
  split; [reflexivity|]. intros Hpre.
  pose proof (prefix_lookup_Some _ _ 1 _
                (eq_refl : messages enrich_state !! 1 =
                           Some (AIMessage EmptyString [john_call] (Some "run-1")))
                Hpre) as H.
  change (Some (AIMessage EmptyString [john_call_enriched] (Some "run-1")) =
          Some (AIMessage EmptyString [john_call] (Some "run-1"))) in H.
  assert (tc_args john_call_enriched !! "user_id" = tc_args john_call !! "user_id")
    as Hargs by congruence.
  vm_compute in Hargs. discriminate Hargs.
Qed.

(** Claim C5, amended.  Every step of the graph leaves [user_id] as it was and
    never makes the message sequence shorter.  For the reasoning, execution
    and synchronization steps the merged result has the prior messages as a
    prefix; for ENRICH it has as a prefix the prior messages with [user_id]
    written into the first tool call of the latest record, every earlier
    record being as it was.  Only the synchronization step changes
    [user_name]. *)
Theorem graph_step_invariants
    (model : list message → result Reply)
    (executor : AgentState → UserDb → result (list message * UserDb))
    (n n' : node) (st st' : AgentState) (db db' : UserDb) :
  graph_step model executor n st db = Ok (n', st', db') →
  user_id st' = user_id st ∧
  length (messages st) ≤ length (messages st') ∧
  (n ≠ update_tool_call → messages st `prefix_of` messages st') ∧
  (n = update_tool_call →
     after_injection st `prefix_of` messages st' ∧
     take (length (messages st) - 1) (messages st) `prefix_of` messages st') ∧
  (user_name st' ≠ user_name st → n = update_state_with_name).
Proof.
  intros Hstep. apply run_node_Ok_next in Hstep.
  destruct n; simpl in Hstep.
  - destruct (call_model model st) as [upd|e] eqn:E; simpl in Hstep; [|discriminate].
    injection Hstep as <- <-.
    apply call_model_Ok in E as (r & _ & ->). simpl.
    split; [done|]. split; [rewrite length_app; lia|].
    split; [intros _; by apply prefix_app_r|].
    split; [done|]. by intros [].
  - destruct (enrich_step st) as [st1|e] eqn:E; simpl in Hstep; [|discriminate].
    injection Hstep as <- <-.
    apply enrich_step_Ok in E as [(ms & c & tc & rest & i & Hms & ->)|(c & i & Hlast & ->)];
      simpl.
    + split; [done|]. rewrite Hms, !length_app. simpl.
      split; [lia|]. split; [done|].
      split; [|by intros []]. intros _. split.
      * unfold after_injection. rewrite Hms, last_snoc. simpl.
        rewrite set_last_snoc.
        by exists [AIMessage c [set_arg tc "user_id" (PStr (user_id st))] i];
          rewrite <- app_assoc.
      * replace (length ms + 1 - 1) with (length ms) by lia.
        rewrite take_app_length. by apply prefix_app_r.
    + split; [done|]. split; [done|]. split; [done|].
      split; [|by intros []]. intros _. split.
      * unfold after_injection. rewrite Hlast. simpl.
        destruct (last_snoc_split _ _ Hlast) as [ms ->].
        by rewrite set_last_snoc.
      * apply prefix_take.
  - destruct (executor st db) as [[out db1]|e]; simpl in Hstep; [|discriminate].
    injection Hstep as <- <-. simpl. rewrite messages_reducer_app.
    split; [done|]. split; [rewrite length_app; lia|].
    split; [intros _; by apply prefix_app_r|].
    split; [done|]. by intros [].
  - destruct (sync_step st) as [st1|e] eqn:E; simpl in Hstep; [|discriminate].
    injection Hstep as <- <-. apply sync_step_Ok in E as [Hm Hu].
    rewrite Hm. split; [done|]. split; [done|]. split; [done|]. split; done.
  - injection Hstep as <- <-.
    split; [done|]. split; [done|]. split; [done|].
    split; [done|]. by intros [].
Qed.

Lemma graph_step_invariants_witness :
  ∃ st2,
    graph_step scripted_model tool_node update_tool_call enrich_state ∅
      = Ok (tools, st2, ∅) ∧
    user_id st2 = "user_John" ∧
    2 ≤ length (messages st2) ∧
    after_injection enrich_state `prefix_of` messages st2.
Proof.
  eexists. split; [reflexivity|].
  destruct (graph_step_invariants scripted_model tool_node update_tool_call tools
              enrich_state _ ∅ ∅ eq_refl) as (H1 & H2 & _ & H4 & _).
  exact (conj H1 (conj H2 (proj1 (H4 eq_refl)))).
Defined.

(** ** Whole runs *)

(** A node that is none of the nodes listed in a concrete trace. *)
Ltac not_in_trace :=
  repeat (apply not_elem_of_cons; split; [discriminate|]);
  apply not_elem_of_nil.

Section RunFacts.

Variable agent_runnable : list message → result Reply.
Variable tool_executor : AgentState → UserDb → result (list message * UserDb).

Let step := graph_step agent_runnable tool_executor.
Let run := run_from agent_runnable tool_executor.

Lemma run_from_step fuel n st db n' st' db' :
  n ≠ END →
  step n st db = Ok (n', st', db') →
  run (S fuel) n st db =
  mkRun (run_outcome (run fuel n' st' db'))
        (n :: run_trace (run fuel n' st' db'))
        (run_state (run fuel n' st' db'))
        (run_db (run fuel n' st' db')).
Proof.
  unfold step, run. intros Hn Hstep. destruct n; try done; simpl; by rewrite Hstep.
Qed.

Lemma run_from_raise fuel n st db e :
  n ≠ END →
  step n st db = Err e →
  run (S fuel) n st db = mkRun (Failed n e) [n] st db.
Proof.
  unfold step, run. intros Hn Hstep. destruct n; try done; simpl; by rewrite Hstep.
Qed.

Lemma run_from_END fuel st db : run fuel END st db = mkRun Finished [] st db.
Proof. by destruct fuel. Qed.

(** ROUTE after a reply that carries a tool call, and after one that does not. *)
Lemma agent_step_tools st db r tc rest :
  agent_runnable
    (SystemMessage (get_system_prompt (user_name st)) :: messages st) = Ok r →
  reply_tool_calls r = tc :: rest →
  step agent st db = Ok (update_tool_call, replied st r, db).
Proof.
  intros Hr Htc. unfold step, graph_step, run_node, call_model. rewrite Hr. simpl.
  unfold tools_condition, apply_update. simpl.
  rewrite last_snoc. destruct r as [c tcs i]. simpl in Htc. subst tcs.
  reflexivity.
Qed.

Lemma agent_step_end st db r :
  agent_runnable
    (SystemMessage (get_system_prompt (user_name st)) :: messages st) = Ok r →
  reply_tool_calls r = [] →
  step agent st db = Ok (END, replied st r, db).
Proof.
  intros Hr Htc. unfold step, graph_step, run_node, call_model. rewrite Hr. simpl.
  unfold tools_condition, apply_update. simpl.
  rewrite last_snoc. destruct r as [c tcs i]. simpl in Htc. subst tcs.
  reflexivity.
Qed.

Lemma enrich_graph_step st st2 db :
  enrich_step st = Ok st2 →
  step update_tool_call st db = Ok (tools, st2, db).
Proof. intros H. unfold step, graph_step, run_node. by rewrite H. Qed.

Lemma tools_step_raise st db e :
  tool_executor st db = Err e → step tools st db = Err e.
Proof. intros H. unfold step, graph_step, run_node. by rewrite H. Qed.

End RunFacts.

(** Claim C6.  When the model's reply carries no tool call, the router sends
    the run from the reasoning node straight to the end: ENRICH, EXECUTE and
    SYNC are never entered, and the message sequence grows by exactly one
    record, the reply. *)
Theorem plain_reply_ends_turn
    (model : list message → result Reply)
    (executor : AgentState → UserDb → result (list message * UserDb))
    (st : AgentState) (db : UserDb) (r : Reply) (fuel : nat) :
  model (SystemMessage (get_system_prompt (user_name st)) :: messages st) = Ok r →
  reply_tool_calls r = [] →
  let run := run_from model executor (S fuel) agent st db in
  graph_step model executor agent st db = Ok (END, run_state run, db) ∧
  run_outcome run = Finished ∧
  run_trace run = [agent] ∧
  (update_tool_call ∉ run_trace run) ∧
  (tools ∉ run_trace run) ∧
  (update_state_with_name ∉ run_trace run) ∧
  messages (run_state run) = messages st ++ [reply_message r] ∧
  length (messages (run_state run)) = S (length (messages st)) ∧
  run_db run = db.
Proof.
  intros Hr Htc run. subst run.
  pose proof (agent_step_end model executor st db r Hr Htc) as Hstep.
  rewrite (run_from_step _ _ fuel agent st db END _ _ ltac:(done) Hstep).
  rewrite run_from_END. simpl.
  split; [done|]. split; [done|]. split; [done|].
  split; [not_in_trace|]. split; [not_in_trace|]. split; [not_in_trace|].
  split; [done|]. split; [|done]. rewrite length_app. simpl. lia.
Qed.

Lemma plain_reply_ends_turn_witness :
  run_trace (invoke scripted_model tool_node run2_state john_db) = [agent] ∧
  length (messages (run_state (invoke scripted_model tool_node run2_state john_db))) = 2.
Proof.
  destruct (plain_reply_ends_turn scripted_model tool_node run2_state john_db
              (mkReply "Your name is on file." [] (Some "run-2")) 24
              eq_refl eq_refl)
    as (_ & _ & H3 & _ & _ & _ & _ & H8 & _).
  exact (conj H3 H8).
Defined.

(** Claim C7 is not met by the code.  The tool node is [ToolNode(tools)] with
    the library's error handling, so a failing tool call does not leave the
    node: the failure is reported in the tool-result record, the edge from the
    tool node leads on to SYNC, and SYNC, which never reads the tool result,
    sets [user_name] from the call.  The run finishes normally with
    [user_name] changed and the durable store as it was. *)
Theorem tool_failure_reaches_sync
    (model : list message → result Reply)
    (executor : AgentState → UserDb → result (list message * UserDb))
    (st st2 : AgentState) (db : UserDb) (r r2 : Reply) (tc : ToolCall)
    (rest : list ToolCall) (v : pyval) (e : exn) (fuel : nat) :
  model (SystemMessage (get_system_prompt (user_name st)) :: messages st) = Ok r →
  reply_tool_calls r = tc :: rest →
  tc_name tc = remember_name_tool →
  tc_args tc !! "name" = Some v →
  enrich_step (replied st r) = Ok st2 →
  executor st2 db = Err e →
  model (SystemMessage (get_system_prompt v) ::
         messages st2 ++ [ToolMessage ("Error: " +:+ error_text e) (tc_id tc)]) = Ok r2 →
  reply_tool_calls r2 = [] →
  let run := run_from model (report_errors executor) (5 + fuel) agent st db in
  run_outcome run = Finished ∧
  run_trace run = [agent; update_tool_call; tools; update_state_with_name; agent] ∧
  update_state_with_name ∈ run_trace run ∧
  user_name (run_state run) = v ∧
  run_db run = db.
Proof.
  intros Hr Htc Hname Harg Henrich Hexec Hr2 Htc2 run. subst run.
  destruct st as [ms uname uid]. destruct r as [c tcs i].
  cbn [messages user_name user_id reply_tool_calls reply_content reply_id] in *.
  subst tcs. unfold replied, reply_message in Henrich. simpl in Henrich.
  rewrite enrich_step_snoc in Henrich. injection Henrich as <-.
  set (tc' := set_arg tc "user_id" (PStr uid)) in *.
  set (msgs2 := ms ++ [AIMessage c (tc' :: rest) i; AIMessage c [tc'] i]) in *.
  set (m3 := ToolMessage ("Error: " +:+ error_text e) (tc_id tc)) in *.
  pose proof (agent_step_tools model (report_errors executor) (mkState ms uname uid) db
                (mkReply c (tc :: rest) i) tc rest Hr eq_refl) as H1.
  pose proof (enrich_graph_step model (report_errors executor) _ _ db
                (enrich_step_snoc ms c tc rest i uname uid)) as H2.
  assert (graph_step model (report_errors executor) tools (mkState msgs2 uname uid) db
          = Ok (update_state_with_name, mkState (msgs2 ++ [m3]) uname uid, db)) as H3.
  { unfold graph_step, run_node, report_errors. rewrite Hexec. simpl.
    unfold latest_tool_call. simpl. subst msgs2. rewrite last_app. reflexivity. }
  assert (graph_step model (report_errors executor) update_state_with_name
            (mkState (msgs2 ++ [m3]) uname uid) db
          = Ok (agent, mkState (msgs2 ++ [m3]) v uid, db)) as H4.
  { unfold graph_step, run_node, sync_step, update_user_name_in_state. simpl.
    subst msgs2. rewrite <- app_assoc.
    rewrite neg_index_app_r by (simpl; lia). simpl.
    rewrite decide_True by done. unfold getitem. subst tc'. simpl.
    rewrite lookup_insert_ne, Harg by done. reflexivity. }
  pose proof (agent_step_end model (report_errors executor)
                (mkState (msgs2 ++ [m3]) v uid) db r2 Hr2 Htc2) as H5.
  change (5 + fuel) with (S (S (S (S (S fuel))))).
  rewrite (run_from_step _ _ _ agent _ db _ _ _ ltac:(done) H1).
  rewrite (run_from_step _ _ _ update_tool_call _ db _ _ _ ltac:(done) H2).
  rewrite (run_from_step _ _ _ tools _ db _ _ _ ltac:(done) H3).
  rewrite (run_from_step _ _ _ update_state_with_name _ db _ _ _ ltac:(done) H4).
  rewrite (run_from_step _ _ _ agent _ db _ _ _ ltac:(done) H5).
  rewrite run_from_END. simpl.
  split; [done|]. split; [done|]. split; [|done].
  rewrite !elem_of_cons. auto.
Qed.

Lemma tool_failure_reaches_sync_witness :
  run_outcome (invoke scripted_model (report_errors failing_executor) run1_state ∅)
    = Finished ∧
  user_name (run_state (invoke scripted_model (report_errors failing_executor)
                          run1_state ∅)) = PStr "John" ∧
  get_user_name (run_db (invoke scripted_model (report_errors failing_executor)
                           run1_state ∅)) "user_John" = PNone.
Proof.
  destruct (tool_failure_reaches_sync scripted_model failing_executor run1_state
              (mkState [HumanMessage "Hi, my name is John.";
                        AIMessage EmptyString [john_call_enriched] (Some "run-1");
                        AIMessage EmptyString [john_call_enriched] (Some "run-1")]
                       PNone "user_John")
              ∅ (mkReply EmptyString [john_call] (Some "run-1"))
              (mkReply "Nice to meet you, John." [] (Some "run-3"))
              john_call [] (PStr "John") (Raised "database is locked") 20
              eq_refl eq_refl eq_refl eq_refl eq_refl eq_refl eq_refl eq_refl)
    as (H1 & _ & _ & H4 & H5).
  split; [exact H1|]. split; [exact H4|].
  unfold invoke. change recursion_limit with (5 + 20). by rewrite H5.
Defined.

(** ** The system prompt *)

(** Claim C8.  The directive is a function of [user_name] alone, with exactly
    two branches.  A known name gives the directive that states the name and
    tells the model to address the user by it; an unknown name gives the
    directive that tells the model to call the remember-name tool with the
    exact name provided, before answering anything else in the turn. *)
Theorem system_prompt_two_branches (name : pyval) :
  (∀ name', name' = name → get_system_prompt name' = get_system_prompt name) ∧
  get_system_prompt name =
    (if truthy name
     then "You are a helpful assistant. Your goal is to learn about the user's name and use it in the converation. You know the user's name is "
          +:+ py_str name +:+ ". Address them by their name " +:+ py_str name
     else "You are a helpful assistant. Your goal is to learn about the user's name and use it in the converation. You do not know the user's name yet. "
          +:+ nl +:+ nl +:+
          "**CRITICAL INSTRUCTION:** When the user provides their name (e.g., 'Hi, my name is Bob'), you MUST immediately call the 'remember_user_name_external' tool with the exact name they provided. This is your highest priority task when a name is given. Do not answer their other queries in the same turn; just call the tool.") ∧
  contains "call the 'remember_user_name_external' tool with the exact name they provided"
           (get_system_prompt PNone) = true ∧
  contains "Do not answer their other queries in the same turn; just call the tool."
           (get_system_prompt PNone) = true ∧
  contains "You know the user's name is John. Address them by their name John"
           (get_system_prompt (PStr "John")) = true.
Proof.
  split; [by intros ? ->|]. split.
  - unfold get_system_prompt. destruct (truthy name); reflexivity.
  - repeat split; vm_compute; reflexivity.
Qed.

Lemma system_prompt_two_branches_witness :
  get_system_prompt (PStr "John") = get_system_prompt (PStr "John") ∧
  get_system_prompt (PStr "John") =
  "You are a helpful assistant. Your goal is to learn about the user's name and use it in the converation. You know the user's name is John. Address them by their name John".
Proof.
  split.
  - exact (proj1 (system_prompt_two_branches (PStr "John")) (PStr "John") eq_refl).
  - exact (proj1 (proj2 (system_prompt_two_branches (PStr "John")))).
Defined.

(** Claim C10.  The branch is taken on the truth value of [user_name]: the
    empty string gives the same directive as [None], the one for an unknown
    name. *)
Theorem empty_name_is_unknown :
  get_system_prompt (PStr EmptyString) = get_system_prompt PNone ∧
  get_system_prompt (PStr EmptyString) = base_prompt +:+ unknown_name_suffix ∧
  contains "You do not know the user's name yet."
           (get_system_prompt (PStr EmptyString)) = true ∧
  contains "You know the user's name is"
           (get_system_prompt (PStr EmptyString)) = false.
Proof. repeat split; vm_compute; reflexivity. Qed.

(** ** The durable store and the round trip *)

(** EXECUTE on an enriched remember-name call. *)
Lemma tool_node_remember ms m c tc i name uid uname db :
  tc_name tc = remember_name_tool →
  tc_args tc !! "name" = Some (PStr name) →
  tool_node
    (mkState (ms ++ [m; AIMessage c [set_arg tc "user_id" (PStr uid)] i]) uname uid) db =
  Ok ([ToolMessage ("OK, I've saved " +:+ name +:+ " to your main profile.") (tc_id tc)],
      <[uid := name]> db).
Proof.
  intros Hname Harg. unfold tool_node. simpl.
  rewrite neg_index_app_r by (simpl; lia). simpl.
  unfold invoke_tool. simpl. rewrite decide_True by done.
  rewrite lookup_insert_eq, lookup_insert_ne, Harg by done.
  reflexivity.
Qed.

(** Claim C9.  A name put for a user is what a later get for that user
    returns, the last put winning.  And after a turn in which the model asks
    for the remember-name tool with some name, the durable store returns that
    name for the state's user and the state's [user_name] is that name. *)
Theorem remember_round_trip :
  (∀ (db : UserDb) uid name,
     get_user_name (persist_user_name_to_db uid name db) uid = PStr name) ∧
  (∀ (db : UserDb) uid name1 name2,
     get_user_name
       (persist_user_name_to_db uid name2 (persist_user_name_to_db uid name1 db)) uid
     = PStr name2) ∧
  (∀ (model : list message → result Reply) st (db : UserDb)
     r tc rest name r2 fuel,
     model (SystemMessage (get_system_prompt (user_name st)) :: messages st) = Ok r →
     reply_tool_calls r = tc :: rest →
     tc_name tc = remember_name_tool →
     tc_args tc !! "name" = Some (PStr name) →
     let tc' := set_arg tc "user_id" (PStr (user_id st)) in
     let msgs' :=
       messages st ++
       [AIMessage (reply_content r) (tc' :: rest) (reply_id r);
        AIMessage (reply_content r) [tc'] (reply_id r);
        ToolMessage ("OK, I've saved " +:+ name +:+ " to your main profile.") (tc_id tc)] in
     model (SystemMessage (get_system_prompt (PStr name)) :: msgs') = Ok r2 →
     reply_tool_calls r2 = [] →
     let run := run_from model tool_node (5 + fuel) agent st db in
     run_outcome run = Finished ∧
     run_trace run = [agent; update_tool_call; tools; update_state_with_name; agent] ∧
     get_user_name (run_db run) (user_id st) = PStr name ∧
     user_name (run_state run) = PStr name ∧
     messages (run_state run) = msgs' ++ [reply_message r2]).
Proof.
  split; [|split].
  - intros db uid name. unfold get_user_name, persist_user_name_to_db.
    by rewrite lookup_insert_eq.
  - intros db uid name1 name2. unfold get_user_name, persist_user_name_to_db.
    by rewrite lookup_insert_eq.
  - intros model st db r tc rest name r2 fuel Hr Htc Hname Harg tc' msgs' Hr2 Htc2 run.
    subst run. destruct st as [ms uname uid]. destruct r as [c tcs i].
    cbn [messages user_name user_id reply_tool_calls reply_content reply_id] in *.
    subst tcs.
    pose proof (agent_step_tools model tool_node (mkState ms uname uid) db
                  (mkReply c (tc :: rest) i) tc rest Hr eq_refl) as H1.
    pose proof (enrich_graph_step model tool_node _ _ db
                  (enrich_step_snoc ms c tc rest i uname uid)) as H2.
    change (5 + fuel) with (S (S (S (S (S fuel))))).
    rewrite (run_from_step _ _ _ agent _ db _ _ _ ltac:(done) H1).
    rewrite (run_from_step _ _ _ update_tool_call _ db _ _ _ ltac:(done) H2).
    assert (graph_step model tool_node tools
              (mkState (ms ++ [AIMessage c (tc' :: rest) i; AIMessage c [tc'] i]) uname uid) db
            = Ok (update_state_with_name,
                  mkState (ms ++ [AIMessage c (tc' :: rest) i; AIMessage c [tc'] i;
                                  ToolMessage ("OK, I've saved " +:+ name +:+
                                               " to your main profile.") (tc_id tc)])
                          uname uid,
                  <[uid := name]> db)) as H3.
    { unfold graph_step, run_node. subst tc'.
      rewrite (tool_node_remember ms _ c tc i name uid uname db Hname Harg). simpl.
      unfold apply_update. simpl. by rewrite <- app_assoc. }
    rewrite (run_from_step _ _ _ tools _ db _ _ _ ltac:(done) H3).
    assert (graph_step model tool_node update_state_with_name
              (mkState msgs' uname uid) (<[uid := name]> db)
            = Ok (agent, mkState msgs' (PStr name) uid, <[uid := name]> db)) as H4.
    { unfold graph_step, run_node, sync_step, update_user_name_in_state. subst msgs'.
      simpl.
      rewrite neg_index_app_r by (simpl; lia).
      simpl. rewrite decide_True by done.
      unfold getitem. subst tc'. simpl.
      rewrite lookup_insert_ne, Harg by done. reflexivity. }
    rewrite (run_from_step _ _ _ update_state_with_name _ _ _ _ _ ltac:(done) H4).
    pose proof (agent_step_end model tool_node (mkState msgs' (PStr name) uid)
                  (<[uid := name]> db) r2 Hr2 Htc2) as H5.
    rewrite (run_from_step _ _ _ agent _ _ _ _ _ ltac:(done) H5).
    rewrite run_from_END. simpl.
    split; [done|]. split; [done|].
    split; [unfold get_user_name; by rewrite lookup_insert_eq|]. done.
Qed.

Lemma remember_round_trip_witness :
  get_user_name (run_db (invoke scripted_model tool_node run1_state ∅)) "user_John"
    = PStr "John" ∧
  user_name (run_state (invoke scripted_model tool_node run1_state ∅)) = PStr "John".
Proof.
  destruct (proj2 (proj2 remember_round_trip) scripted_model run1_state ∅
              (mkReply EmptyString [john_call] (Some "run-1")) john_call [] "John"
              (mkReply "Nice to meet you, John." [] (Some "run-3")) 20
              eq_refl eq_refl eq_refl eq_refl eq_refl eq_refl)
    as (_ & _ & H3 & H4 & _).
  exact (conj H3 H4).
Defined.

(** * Further properties of the code *)

(** ** The reducer of [messages] *)

(** The guard of the reducer, [if y else x], never changes the result: the
    reducer is list concatenation, hence associative with the empty list as
    unit, and merging two message updates in a row is merging their
    concatenation. *)
Theorem messages_reducer_monoid :
  (∀ x y, messages_reducer x y = x ++ y) ∧
  (∀ x y z,
     messages_reducer (messages_reducer x y) z =
     messages_reducer x (messages_reducer y z)) ∧
  (∀ x, messages_reducer x [] = x ∧ messages_reducer [] x = x) ∧
  (∀ st a b,
     apply_update (apply_update st (messages_update a)) (messages_update b) =
     apply_update st (messages_update (a ++ b))).
Proof.
  split; [exact messages_reducer_app|]. split; [|split].
  - intros x y z. rewrite !messages_reducer_app. by rewrite app_assoc.
  - intros x. split; [reflexivity|]. by rewrite messages_reducer_app.
  - intros st a b. unfold apply_update. simpl.
    rewrite !messages_reducer_app. by rewrite app_assoc.
Qed.

(** ** ENRICH at the edges *)

(** [update_tool_call_with_user_id] raises [IndexError] on an empty history
    and [AttributeError] when the latest record is not an assistant record;
    on an assistant record without tool calls it returns the empty update and
    leaves the state alone. *)
Theorem enrich_edge_cases (st : AgentState) :
  (messages st = [] → update_tool_call_with_user_id st = Err IndexError) ∧
  (∀ m, last (messages st) = Some m →
        (∀ c tcs i, m ≠ AIMessage c tcs i) →
        update_tool_call_with_user_id st = Err (AttributeError "tool_calls")) ∧
  (∀ c i, last (messages st) = Some (AIMessage c [] i) →
          update_tool_call_with_user_id st = Ok (st, no_update) ∧
          enrich_step st = Ok st).
Proof.
  unfold enrich_step, update_tool_call_with_user_id.
  rewrite neg_index_last. split; [|split].
  - by intros ->.
  - intros m -> Hm. destruct m; try reflexivity. by destruct (Hm content tool_calls id).
  - intros c i ->. simpl. split; [reflexivity|]. by rewrite apply_no_update.
Qed.

Lemma enrich_edge_cases_witness :
  update_tool_call_with_user_id empty_state = Err IndexError ∧
  update_tool_call_with_user_id short_state = Err (AttributeError "tool_calls") ∧
  enrich_step plain_reply_state = Ok plain_reply_state.
Proof.
  split; [|split].
  - exact (proj1 (enrich_edge_cases empty_state) eq_refl).
  - refine (proj1 (proj2 (enrich_edge_cases short_state)) (HumanMessage "Hi.") eq_refl _).
    intros c tcs i. discriminate.
  - exact (proj2 (proj2 (proj2 (enrich_edge_cases plain_reply_state))
                    "Hello!" (Some "run-0") eq_refl)).
Defined.

Lemma set_arg_twice tc key v : set_arg (set_arg tc key v) key v = set_arg tc key v.
Proof. unfold set_arg. simpl. by rewrite insert_insert_eq. Qed.

(** ENRICH is not idempotent on the history but is on the call: run again on
    its own result, it appends one more copy, equal to the latest record, and
    changes nothing else. *)
Theorem enrich_again_appends_same_copy (st st2 : AgentState) c tc rest i :
  last (messages st) = Some (AIMessage c (tc :: rest) i) →
  enrich_step st = Ok st2 →
  ∃ m, last (messages st2) = Some m ∧
       enrich_step st2 =
       Ok (mkState (messages st2 ++ [m]) (user_name st2) (user_id st2)).
Proof.
  intros Hlast Hstep.
  destruct (last_snoc_split _ _ Hlast) as [ms Hms].
  destruct st as [msgs name uid]. simpl in *. subst msgs.
  rewrite enrich_step_snoc in Hstep. injection Hstep as <-. simpl.
  exists (AIMessage c [set_arg tc "user_id" (PStr uid)] i).
  split; [by rewrite last_app|].
  change (ms ++ [AIMessage c (set_arg tc "user_id" (PStr uid) :: rest) i;
                 AIMessage c [set_arg tc "user_id" (PStr uid)] i])
    with (ms ++ [AIMessage c (set_arg tc "user_id" (PStr uid) :: rest) i] ++
                [AIMessage c [set_arg tc "user_id" (PStr uid)] i]).
  rewrite app_assoc, enrich_step_snoc, set_arg_twice.
  by rewrite <- !app_assoc.
Qed.

Lemma enrich_again_appends_same_copy_witness :
  ∃ st2 st3,
    enrich_step enrich_state = Ok st2 ∧ enrich_step st2 = Ok st3 ∧
    length (messages st3) = 4 ∧ messages st3 !! 3 = messages st3 !! 2.
Proof.
  destruct (enrich_again_appends_same_copy enrich_state
              (mkState [HumanMessage "Hi, my name is John.";
                        AIMessage EmptyString [john_call_enriched] (Some "run-1");
                        AIMessage EmptyString [john_call_enriched] (Some "run-1")]
                       PNone "user_John")
              EmptyString john_call [] (Some "run-1") eq_refl eq_refl)
    as (m & Hm & Hstep).
  eexists _, _. split; [reflexivity|]. split; [exact Hstep|].
  simpl in Hm. injection Hm as <-. split; reflexivity.
Defined.

(** ** SYNC at the edges *)

(** [update_user_name_in_state] raises [IndexError] when the history has fewer
    than two records, [AttributeError] when the second-to-last record is not
    an assistant record, and [KeyError] when its first call is the
    remember-name call without a ["name"] argument. *)
Theorem sync_errors (st : AgentState) :
  (length (messages st) < 2 → update_user_name_in_state st = Err IndexError) ∧
  (∀ m, neg_index (messages st) 2 = Ok m →
        (∀ c tcs i, m ≠ AIMessage c tcs i) →
        update_user_name_in_state st = Err (AttributeError "tool_calls")) ∧
  (∀ c tc rest i,
     neg_index (messages st) 2 = Ok (AIMessage c (tc :: rest) i) →
     tc_name tc = remember_name_tool →
     tc_args tc !! "name" = None →
     update_user_name_in_state st = Err (KeyError "name")).
Proof.
  unfold update_user_name_in_state. split; [|split].
  - intros Hlen. unfold neg_index. by rewrite decide_False by lia.
  - intros m -> Hm. destruct m; try reflexivity. by destruct (Hm content tool_calls id).
  - intros c tc rest i -> Hname Harg. simpl.
    rewrite decide_True by done. unfold getitem. by rewrite Harg.
Qed.

Lemma sync_errors_witness :
  update_user_name_in_state short_state = Err IndexError ∧
  update_user_name_in_state no_call_state = Err (AttributeError "tool_calls") ∧
  update_user_name_in_state nameless_state = Err (KeyError "name").
Proof.
  split; [|split].
  - apply (proj1 (sync_errors short_state)). simpl. lia.
  - refine (proj1 (proj2 (sync_errors no_call_state)) (HumanMessage "Hi.") eq_refl _).
    intros c tcs i. discriminate.
  - exact (proj2 (proj2 (sync_errors nameless_state))
             EmptyString nameless_call [] (Some "run-1") eq_refl eq_refl eq_refl).
Defined.

(** SYNC touches nothing but [user_name], and running it again on its own
    result changes nothing. *)
Theorem sync_idempotent (st st' : AgentState) :
  sync_step st = Ok st' →
  messages st' = messages st ∧
  user_id st' = user_id st ∧
  sync_step st' = Ok st'.
Proof.
  unfold sync_step, update_user_name_in_state. intros H.
  destruct (neg_index (messages st) 2) as [m|] eqn:Hm; simpl in H; [|discriminate].
  destruct (tool_calls_of m) as [tcs|] eqn:Htcs; simpl in H; [|discriminate].
  assert (∃ upd, (match tcs with
                  | [] => Ok no_update
                  | tool_call :: _ =>
                      if decide (tc_name tool_call = remember_name_tool)
                      then getitem (tc_args tool_call) "name" ≫=
                             (λ name, Ok (user_name_update name))
                      else Ok no_update
                  end) = Ok upd ∧ upd_messages upd = None ∧ upd_user_id upd = None ∧
                 st' = apply_update st upd) as (upd & Hupd & Hmsg & Huid & ->).
  { destruct tcs as [|tc tcs]; simpl in H.
    - injection H as <-. by exists no_update.
    - case_decide.
      + destruct (getitem (tc_args tc) "name") as [v|]; simpl in H; [|discriminate].
        injection H as <-. by exists (user_name_update v).
      + injection H as <-. by exists no_update. }
  unfold apply_update at 1 2. rewrite Hmsg, Huid. simpl.
  split; [done|]. split; [done|].
  rewrite Hmsg. simpl. rewrite Hm. simpl. rewrite Htcs. simpl. rewrite Hupd. simpl.
  f_equal. unfold apply_update. rewrite Hmsg, Huid. simpl.
  by destruct (upd_user_name upd).
Qed.

Lemma sync_idempotent_witness :
  sync_step (with_user_name executed_state (PStr "John")) =
  Ok (with_user_name executed_state (PStr "John")).
Proof.
  exact (proj2 (proj2 (sync_idempotent executed_state
                         (with_user_name executed_state (PStr "John")) eq_refl))).
Defined.

(** ** The durable store *)

(** Writing one user's name leaves every other user's answer as it was, writes
    for two different users can be made in either order, and writing the same
    name twice is writing it once. *)
Theorem persist_other_users (db : UserDb) (uid uid' name name' : string) :
  uid ≠ uid' →
  get_user_name (persist_user_name_to_db uid name db) uid' = get_user_name db uid' ∧
  get_user_name (snd (remember_user_name_external uid name db)) uid'
    = get_user_name db uid' ∧
  persist_user_name_to_db uid name (persist_user_name_to_db uid' name' db) =
  persist_user_name_to_db uid' name' (persist_user_name_to_db uid name db) ∧
  persist_user_name_to_db uid name (persist_user_name_to_db uid name db) =
  persist_user_name_to_db uid name db.
Proof.
  intros Hne. unfold remember_user_name_external, get_user_name,
    persist_user_name_to_db. simpl.
  rewrite lookup_insert_ne by done.
  split; [done|]. split; [done|]. split.
  - by apply insert_insert_ne.
  - apply insert_insert_eq.
Qed.

Lemma persist_other_users_witness :
  get_user_name (persist_user_name_to_db "user_Jane" "Jane" john_db) "user_John"
    = PStr "John".
Proof.
  exact (proj1 (persist_other_users john_db "user_Jane" "user_John" "Jane" "John"
                  ltac:(discriminate))).
Defined.

(** [create_user_database] can be called at any time.  As long as the engine
    does not fail, it is idempotent and keeps the rows of an existing table;
    after it, reading and writing succeed and a name written is the name
    read, while on a database without the table both raise [no_such_table].
    An error of the engine is passed on by each of the three functions. *)
Theorem create_user_database_safe (f : UserDbFile) (uid name : string) :
  (∀ e, create_user_database (Some e) f = Err e ∧
        get_user_name_from (Some e) f uid = Err e ∧
        persist_user_name_to (Some e) uid name f = Err e) ∧
  (∃ f1, create_user_database None f = Ok f1 ∧
         create_user_database None f1 = Ok f1 ∧
         (∀ t, f = Some t → f1 = Some t) ∧
         get_user_name_from None f1 uid =
           Ok (match f with
               | Some t => get_user_name t uid
               | None => PNone
               end) ∧
         ∃ f2, persist_user_name_to None uid name f1 = Ok f2 ∧
               get_user_name_from None f2 uid = Ok (PStr name) ∧
               create_user_database None f2 = Ok f2) ∧
  get_user_name_from None None uid = Err no_such_table ∧
  persist_user_name_to None uid name None = Err no_such_table.
Proof.
  split; [done|]. split; [|done].
  destruct f as [t|]; simpl.
  - exists (Some t). repeat split; [by intros ? [= ->]|].
    eexists. split; [reflexivity|]. simpl.
    unfold get_user_name, persist_user_name_to_db. by rewrite lookup_insert_eq.
  - exists (Some ∅). repeat split; [done|].
    eexists. split; [reflexivity|]. simpl.
    unfold get_user_name, persist_user_name_to_db. by rewrite lookup_insert_eq.
Qed.

Lemma create_user_database_safe_witness :
  create_user_database None (Some john_db) = Ok (Some john_db).
Proof.
  destruct (proj1 (proj2 (create_user_database_safe (Some john_db) "user_John" "John")))
    as (f1 & Hcreate & _ & Hkeep & _).
  rewrite Hcreate. f_equal. exact (Hkeep john_db eq_refl).
Defined.

(** ** Cleaning up the database files *)

Lemma remove_if_exists_cases p (fs : Directory) :
  match fs !! p with
  | Some (Some e) => remove_if_exists p fs = Err e
  | _ => remove_if_exists p fs = Ok (delete p fs)
  end.
Proof.
  unfold remove_if_exists, os_path_exists, os_remove.
  destruct (fs !! p) as [[e|]|] eqn:Hp.
  - by rewrite bool_decide_eq_true_2.
  - by rewrite bool_decide_eq_true_2.
  - rewrite bool_decide_eq_false_2 by (by intros [? ?]).
    by rewrite delete_id.
Qed.

Lemma cleanup_db_remove_each db_files fs :
  cleanup_db db_files fs = remove_each (db_files ≫= db_paths) fs.
Proof.
  revert fs. induction db_files as [|f rest IH]; intros fs; [done|]. simpl.
  destruct (remove_if_exists f fs) as [fs1|]; simpl; [|done].
  destruct (remove_if_exists (f +:+ "-shm") fs1) as [fs2|]; simpl; [|done].
  destruct (remove_if_exists (f +:+ "-wal") fs2) as [fs3|]; simpl; [|done].
  apply IH.
Qed.

Lemma remove_each_Ok paths (fs : Directory) :
  (∀ p e, p ∈ paths → fs !! p ≠ Some (Some e)) →
  ∃ fs', remove_each paths fs = Ok fs' ∧
         ∀ q, fs' !! q = if bool_decide (q ∈ paths) then None else fs !! q.
Proof.
  revert fs. induction paths as [|p rest IH]; intros fs Hfree; simpl.
  - exists fs. split; [done|]. intros q. reflexivity.
  - pose proof (remove_if_exists_cases p fs) as Hp.
    destruct (fs !! p) as [[e|]|] eqn:Hlook.
    + destruct (Hfree p e); [left|done].
    + rewrite Hp. simpl.
      destruct (IH (delete p fs)) as (fs' & Hrun & Hfs').
      { intros q e Hq. rewrite lookup_delete. case_decide; [done|].
        apply Hfree. by right. }
      exists fs'. split; [done|]. intros q. rewrite Hfs', lookup_delete.
      destruct (decide (q ∈ rest)) as [Hin|Hin].
      * by rewrite !bool_decide_eq_true_2 by (done || by right).
      * rewrite (bool_decide_eq_false_2 (q ∈ rest)) by done.
        case_decide as Hpq.
        -- subst q. by rewrite bool_decide_eq_true_2 by left.
        -- rewrite bool_decide_eq_false_2; [done|].
           intros [->|?]%elem_of_cons; done.
    + rewrite Hp. simpl.
      destruct (IH (delete p fs)) as (fs' & Hrun & Hfs').
      { intros q e Hq. rewrite lookup_delete. case_decide; [done|].
        apply Hfree. by right. }
      exists fs'. split; [done|]. intros q. rewrite Hfs', lookup_delete.
      destruct (decide (q ∈ rest)) as [Hin|Hin].
      * by rewrite !bool_decide_eq_true_2 by (done || by right).
      * rewrite (bool_decide_eq_false_2 (q ∈ rest)) by done.
        case_decide as Hpq.
        -- subst q. by rewrite bool_decide_eq_true_2 by left.
        -- rewrite bool_decide_eq_false_2; [done|].
           intros [->|?]%elem_of_cons; done.
Qed.

Lemma remove_each_Err paths (fs : Directory) e :
  remove_each paths fs = Err e → ∃ p, p ∈ paths ∧ fs !! p = Some (Some e).
Proof.
  revert fs. induction paths as [|p rest IH]; intros fs H; simpl in H; [done|].
  pose proof (remove_if_exists_cases p fs) as Hp.
  destruct (fs !! p) as [[e'|]|] eqn:Hlook; rewrite Hp in H; simpl in H.
  - injection H as ->. exists p. split; [left|done].
  - destruct (IH _ H) as (q & Hq & Hlq).
    apply lookup_delete_Some in Hlq as [_ Hlq]. exists q. split; [by right|done].
  - destruct (IH _ H) as (q & Hq & Hlq).
    apply lookup_delete_Some in Hlq as [_ Hlq]. exists q. split; [by right|done].
Qed.

Lemma remove_each_Ok_free paths (fs fs' : Directory) :
  remove_each paths fs = Ok fs' → ∀ p e, p ∈ paths → fs !! p ≠ Some (Some e).
Proof.
  revert fs. induction paths as [|p rest IH]; intros fs H q e Hq.
  - by apply elem_of_nil in Hq.
  - simpl in H. pose proof (remove_if_exists_cases p fs) as Hp.
    destruct (fs !! p) as [[e'|]|] eqn:Hlook; rewrite Hp in H; simpl in H;
      [discriminate| |].
    + destruct (decide (q = p)) as [->|Hne]; [by rewrite Hlook|].
      apply elem_of_cons in Hq as [?|Hq]; [done|].
      pose proof (IH _ H q e Hq) as Hfree. by rewrite lookup_delete_ne in Hfree.
    + destruct (decide (q = p)) as [->|Hne]; [by rewrite Hlook|].
      apply elem_of_cons in Hq as [?|Hq]; [done|].
      pose proof (IH _ H q e Hq) as Hfree. by rewrite lookup_delete_ne in Hfree.
Qed.

(** [cleanup_db] never fails because a file is missing or listed twice: the
    only error it raises is one that [os.remove] raises on a listed path that
    exists, and it does raise when there is such a path.  When every listed
    path that exists can be removed, it removes each listed file with its
    [-shm] and [-wal] companions, leaves every other path as it is, and a
    second cleanup changes nothing. *)
Theorem cleanup_db_removes (db_files : list string) (fs : Directory) :
  ((∀ f p e, f ∈ db_files → p ∈ db_paths f → fs !! p ≠ Some (Some e)) →
   ∃ fs',
     cleanup_db db_files fs = Ok fs' ∧
     (∀ f p, f ∈ db_files → p ∈ db_paths f → fs' !! p = None) ∧
     (∀ p, (∀ f, f ∈ db_files → p ∉ db_paths f) → fs' !! p = fs !! p) ∧
     cleanup_db db_files fs' = Ok fs' ∧
     cleanup_db (db_files ++ db_files) fs = Ok fs') ∧
  (∀ e, cleanup_db db_files fs = Err e →
        ∃ f p, f ∈ db_files ∧ p ∈ db_paths f ∧ fs !! p = Some (Some e)) ∧
  ((∃ f p e, f ∈ db_files ∧ p ∈ db_paths f ∧ fs !! p = Some (Some e)) →
   ∃ e', cleanup_db db_files fs = Err e').
Proof.
  split; [|split].
  - intros Hfree.
    destruct (remove_each_Ok (db_files ≫= db_paths) fs) as (fs' & Hrun & Hfs').
    { intros p e (f & Hp & Hf)%list_elem_of_bind. by apply (Hfree f). }
    exists fs'. rewrite !cleanup_db_remove_each.
    split; [done|]. split; [|split; [|split]].
    + intros f p Hf Hp. rewrite Hfs', bool_decide_eq_true_2; [done|].
      apply list_elem_of_bind. eauto.
    + intros p Hp. rewrite Hfs', bool_decide_eq_false_2; [done|].
      intros (f & Hpf & Hf)%list_elem_of_bind. by apply (Hp f).
    + destruct (remove_each_Ok (db_files ≫= db_paths) fs') as (fs2 & Hrun2 & Hfs2).
      { intros p e Hp. by rewrite Hfs', bool_decide_eq_true_2. }
      rewrite Hrun2. f_equal. apply map_eq. intros q. rewrite Hfs2, Hfs'.
      by destruct (bool_decide (q ∈ db_files ≫= db_paths)).
    + destruct (remove_each_Ok ((db_files ++ db_files) ≫= db_paths) fs)
        as (fs2 & Hrun2 & Hfs2).
      { intros p e (f & Hp & Hf)%list_elem_of_bind.
        apply (Hfree f); [|done]. apply elem_of_app in Hf. tauto. }
      rewrite Hrun2. f_equal. apply map_eq. intros q. rewrite Hfs2, Hfs'.
      apply (f_equal (λ b : bool, if b then None else fs !! q)).
      apply bool_decide_ext. rewrite bind_app, elem_of_app. tauto.
  - rewrite cleanup_db_remove_each.
    intros e (p & (f & Hp & Hf)%list_elem_of_bind & Hlook)%remove_each_Err.
    by exists f, p.
  - rewrite cleanup_db_remove_each. intros (f & p & e & Hf & Hp & Hlook).
    destruct (remove_each (db_files ≫= db_paths) fs) as [fs'|e'] eqn:Hrun; [|eauto].
    destruct (remove_each_Ok_free _ _ _ Hrun p e); [|done].
    apply list_elem_of_bind. eauto.
Qed.

(** ** From one session to the next *)

(** What a remembered name means for the next session.  Bootstrap for the same
    user returns the name and, when the name is not empty, the first
    directive is the one that states it; an empty name is stored and returned
    but the directive is the one for an unknown name.  Bootstrap for any other
    user is what it would have been. *)
Theorem next_session_sees_name (db : UserDb) (uid name user_message : string) :
  let db' := snd (remember_user_name_external uid name db) in
  let st := generate_agent_state db' uid user_message in
  user_name st = PStr name ∧
  (name ≠ EmptyString →
     get_system_prompt (user_name st) = base_prompt +:+ known_name_suffix name) ∧
  (name = EmptyString →
     get_system_prompt (user_name st) = get_system_prompt PNone) ∧
  (∀ uid' m, uid' ≠ uid →
     generate_agent_state db' uid' m = generate_agent_state db uid' m).
Proof.
  simpl. unfold get_user_name, persist_user_name_to_db.
  rewrite lookup_insert_eq. split; [done|]. split; [|split].
  - intros Hne. unfold get_system_prompt. simpl.
    destruct name; [done|reflexivity].
  - by intros ->.
  - intros uid' m Hne. unfold generate_agent_state, get_user_name.
    by rewrite lookup_insert_ne.
Qed.

Lemma next_session_sees_name_witness :
  get_system_prompt
    (user_name (generate_agent_state
                  (snd (remember_user_name_external "user_John" "John" ∅))
                  "user_John" "What is my name?"))
  = base_prompt +:+ known_name_suffix "John" ∧
  generate_agent_state (snd (remember_user_name_external "user_John" "John" ∅))
    "user_Jane" "Do you know my name?"
  = generate_agent_state ∅ "user_Jane" "Do you know my name?".
Proof.
  split.
  - exact (proj1 (proj2 (next_session_sees_name ∅ "user_John" "John" "What is my name?"))
             ltac:(discriminate)).
  - exact (proj2 (proj2 (proj2 (next_session_sees_name ∅ "user_John" "John"
                                  "What is my name?")))
             "user_Jane" "Do you know my name?" ltac:(discriminate)).
Defined.

(** ** The session-state tools of the ADK agent *)

(** [remember_name] then [get_name]: a non-empty name comes back; an empty
    name, like a missing one, gives the fallback sentence.  [remember_name]
    writes the key ["user:name"] only, and the last name written wins. *)
Theorem remember_then_get_name (state : ToolState) (name : string) :
  let state' := snd (remember_name name state) in
  (name ≠ EmptyString → get_name state' = PStr name) ∧
  (name = EmptyString → get_name state' = PStr "I don't know your name.") ∧
  (state !! "user:name" = None → get_name state = PStr "I don't know your name.") ∧
  (∀ key, key ≠ "user:name" → state' !! key = state !! key) ∧
  (∀ name2, snd (remember_name name2 state') = snd (remember_name name2 state)) ∧
  fst (remember_name name state) = "I will remember your name as " +:+ name +:+ ".".
Proof.
  simpl. unfold get_name. rewrite lookup_insert_eq. simpl.
  split; [|split; [|split; [|split; [|split]]]].
  - intros Hne. by destruct name.
  - by intros ->.
  - by intros ->.
  - intros key Hne. by rewrite lookup_insert_ne.
  - intros name2. apply insert_insert_eq.
  - reflexivity.
Qed.

Lemma remember_then_get_name_witness :
  get_name (snd (remember_name "John" ∅)) = PStr "John" ∧
  get_name (∅ : ToolState) = PStr "I don't know your name.".
Proof.
  split.
  - exact (proj1 (remember_then_get_name ∅ "John") ltac:(discriminate)).
  - exact (proj1 (proj2 (proj2 (remember_then_get_name ∅ "John"))) eq_refl).
Defined.

Lemma sample_dir_removable p e : sample_dir !! p ≠ Some (Some e).
Proof.
  unfold sample_dir. intros H.
  repeat (apply lookup_insert_Some in H as [[_ [=]]|[_ H]]).
  by apply lookup_singleton_Some in H as [_ [=]].
Qed.

Lemma cleanup_db_removes_witness :
  (∃ fs', cleanup_db ALL_DBS sample_dir = Ok fs' ∧
          fs' !! "notes.txt" = Some None ∧ fs' !! "lg_user_state.db-wal" = None) ∧
  (∃ e, cleanup_db ALL_DBS blocked_dir = Err e).
Proof.
  split.
  - destruct (proj1 (cleanup_db_removes ALL_DBS sample_dir))
      as (fs' & Hrun & Hgone & Hkept & _).
    { intros f p e _ _. apply sample_dir_removable. }
    exists fs'. split; [exact Hrun|]. split.
    + rewrite Hkept; [reflexivity|]. apply Forall_forall.
      by apply (bool_decide_unpack _).
    + apply (Hgone CHECKPOINT_DB); by apply (bool_decide_unpack _).
  - apply (proj2 (proj2 (cleanup_db_removes ALL_DBS blocked_dir))).
    exists CHECKPOINT_DB, CHECKPOINT_DB, (Raised "IsADirectoryError").
    split; [by apply (bool_decide_unpack _)|].
    split; [by apply (bool_decide_unpack _)|reflexivity].
Defined.

(** ** Every run of the graph *)

Section RunShape.

Variable agent_runnable : list message → result Reply.
Variable tool_executor : AgentState → UserDb → result (list message * UserDb).

Let step := graph_step agent_runnable tool_executor.
Let run := run_from agent_runnable tool_executor.

(** What one successful step can change and where it can lead. *)
Lemma graph_step_frame n st db n' st' db' :
  step n st db = Ok (n', st', db') →
  user_id st' = user_id st ∧
  length (messages st) ≤ length (messages st') ∧
  (n ≠ tools → db' = db) ∧
  (n ≠ update_state_with_name → user_name st' = user_name st) ∧
  (n ≠ END → n' = END ∨ follows n n' = true).
Proof.
  unfold step, graph_step. intros H.
  destruct (run_node _ _ n st db) as [[st1 db1]|e] eqn:Hnode; simpl in H; [|discriminate].
  destruct (next_node n st1) as [n1|e] eqn:Hnext; simpl in H; [|discriminate].
  injection H as -> -> ->.
  destruct n; simpl in Hnode, Hnext.
  - destruct (call_model agent_runnable st) as [upd|e] eqn:E; simpl in Hnode; [|discriminate].
    injection Hnode as <- <-.
    apply call_model_Ok in E as (r & _ & ->). simpl.
    split; [done|]. split; [rewrite length_app; lia|]. split; [done|]. split; [done|].
    intros _. destruct (tools_condition _) as [[]|]; simpl in Hnext; try discriminate;
      injection Hnext as <-; auto.
  - destruct (enrich_step st) as [st2|e] eqn:E; simpl in Hnode; [|discriminate].
    injection Hnode as <- <-. injection Hnext as <-.
    apply enrich_step_Ok in E as [(ms & c & tc & rest & i & Hms & ->)|(c & i & _ & ->)];
      simpl.
    + rewrite Hms, !length_app. simpl. repeat split; auto with lia.
    + repeat split; auto.
  - destruct (tool_executor st db) as [[out db2]|e]; simpl in Hnode; [|discriminate].
    injection Hnode as <- <-. injection Hnext as <-. simpl.
    rewrite messages_reducer_app, length_app.
    split; [done|]. split; [lia|]. split; [done|]. split; [done|]. auto.
  - destruct (sync_step st) as [st2|e] eqn:E; simpl in Hnode; [|discriminate].
    injection Hnode as <- <-. injection Hnext as <-.
    apply sync_step_Ok in E as [Hm Hu]. rewrite Hm.
    split; [done|]. split; [done|]. split; [done|]. split; [done|]. auto.
  - injection Hnode as <- <-. repeat split; auto.
Qed.

Lemma run_from_unfold fuel n st db :
  n ≠ END →
  run (S fuel) n st db =
  match step n st db with
  | Err e => mkRun (Failed n e) [n] st db
  | Ok (n', st', db') =>
      mkRun (run_outcome (run fuel n' st' db'))
            (n :: run_trace (run fuel n' st' db'))
            (run_state (run fuel n' st' db'))
            (run_db (run fuel n' st' db'))
  end.
Proof.
  intros Hn. unfold run, step. destruct n; try done; simpl;
    by destruct (graph_step _ _ _ st db) as [[[? ?] ?]|].
Qed.

End RunShape.

(** The nodes a run enters follow the edges of the graph: ENRICH only right
    after the agent, the tool node only right after ENRICH, SYNC only right
    after the tool node, and the agent again only right after SYNC.  The trace
    starts at the start node, never lists [END], and is no longer than the
    step bound. *)
Theorem run_trace_follows_edges
    (model : list message → result Reply)
    (executor : AgentState → UserDb → result (list message * UserDb))
    (fuel : nat) (n : node) (st : AgentState) (db : UserDb) :
  let t := run_trace (run_from model executor fuel n st db) in
  (∀ a, head t = Some a → a = n) ∧
  (∀ i a b, t !! i = Some a → t !! S i = Some b → follows a b = true) ∧
  (END ∉ t) ∧
  length t ≤ fuel.
Proof.
  revert n st db. induction fuel as [|fuel IH]; intros n st db.
  - destruct n; simpl; (split; [done|]); (split; [done|]);
      (split; [apply not_elem_of_nil|lia]).
  - destruct (decide (n = END)) as [->|Hn].
    { simpl. split; [done|]. split; [done|]. split; [apply not_elem_of_nil|lia]. }
    rewrite (run_from_unfold model executor fuel n st db Hn).
    destruct (graph_step model executor n st db) as [[[n' st'] db']|e] eqn:Hstep; simpl.
    + destruct (IH n' st' db') as (Hhead & Hedges & Hend & Hlen).
      split; [by intros a [= <-]|]. split; [|split].
      * intros [|i] a b Ha Hb; simpl in Ha, Hb.
        -- injection Ha as <-.
           assert (b = n') as -> by (apply Hhead; by rewrite head_lookup).
           destruct (graph_step_frame model executor _ _ _ _ _ _ Hstep)
             as (_ & _ & _ & _ & Hnext).
           destruct (Hnext Hn) as [->|Hf]; [|done].
           destruct fuel; simpl in Hb; discriminate.
        -- by apply (Hedges i).
      * apply not_elem_of_cons. split; [congruence|done].
      * lia.
    + split; [by intros a [= <-]|]. split.
      * intros [|i] a b Ha Hb; simpl in Ha, Hb; discriminate.
      * split; [|lia]. apply not_elem_of_cons. split; [congruence|apply not_elem_of_nil].
Qed.

(** Across a whole run, however it ends: [user_id] is what it was and the
    history has not become shorter; the durable store is untouched unless the
    tool node was entered, and [user_name] is untouched unless the
    synchronization node was entered. *)
Theorem run_frame
    (model : list message → result Reply)
    (executor : AgentState → UserDb → result (list message * UserDb))
    (fuel : nat) (n : node) (st : AgentState) (db : UserDb) :
  let r := run_from model executor fuel n st db in
  user_id (run_state r) = user_id st ∧
  length (messages st) ≤ length (messages (run_state r)) ∧
  (tools ∉ run_trace r → run_db r = db) ∧
  (update_state_with_name ∉ run_trace r → user_name (run_state r) = user_name st).
Proof.
  revert n st db. induction fuel as [|fuel IH]; intros n st db.
  - by destruct n.
  - destruct (decide (n = END)) as [->|Hn]; [done|].
    rewrite (run_from_unfold model executor fuel n st db Hn).
    destruct (graph_step model executor n st db) as [[[n' st'] db']|e] eqn:Hstep;
      simpl; [|done].
    destruct (IH n' st' db') as (Huid & Hlen & Hdb & Hname).
    destruct (graph_step_frame model executor _ _ _ _ _ _ Hstep)
      as (Huid1 & Hlen1 & Hdb1 & Hname1 & _).
    split; [congruence|]. split; [lia|]. split.
    + intros [Hne Hnot]%not_elem_of_cons. rewrite Hdb by done. apply Hdb1. congruence.
    + intros [Hne Hnot]%not_elem_of_cons. rewrite Hname by done. apply Hname1. congruence.
Qed.

Lemma run_frame_witness :
  run_db (invoke scripted_model tool_node run2_state john_db) = john_db ∧
  user_name (run_state (invoke scripted_model tool_node run2_state john_db))
    = PStr "John".
Proof.
  destruct (run_frame scripted_model tool_node recursion_limit agent run2_state john_db)
    as (_ & _ & Hdb & Hname).
  split.
  - apply Hdb. by apply (bool_decide_unpack _).
  - apply Hname. by apply (bool_decide_unpack _).
Defined.

(** When the model call raises, the run fails at the agent node with that
    error; nothing is appended to the history and the durable store is
    untouched. *)
Theorem model_failure_surfaces
    (model : list message → result Reply)
    (executor : AgentState → UserDb → result (list message * UserDb))
    (st : AgentState) (db : UserDb) (e : exn) (fuel : nat) :
  model (SystemMessage (get_system_prompt (user_name st)) :: messages st) = Err e →
  call_model model st = Err e ∧
  run_from model executor (S fuel) agent st db = mkRun (Failed agent e) [agent] st db.
Proof.
  intros H. assert (call_model model st = Err e) as Hcall.
  { unfold call_model. by rewrite H. }
  split; [done|].
  rewrite (run_from_unfold model executor fuel agent st db) by done.
  unfold graph_step, run_node. by rewrite Hcall.
Qed.

Lemma model_failure_surfaces_witness :
  invoke failing_model tool_node run1_state ∅ =
  mkRun (Failed agent (Raised "model unavailable")) [agent] run1_state ∅.
Proof.
  exact (proj2 (model_failure_surfaces failing_model tool_node run1_state ∅
                  (Raised "model unavailable") 24 eq_refl)).
Defined.

Lemma run_trace_follows_edges_witness :
  follows update_tool_call tools = true.
Proof.
  exact (proj1 (proj2 (run_trace_follows_edges scripted_model tool_node
                         recursion_limit agent run1_state ∅))
           1 update_tool_call tools eq_refl eq_refl).
Defined.

(** What the agent step leaves when it routes to a given node. *)
Lemma agent_step_Ok
    (model : list message → result Reply)
    (executor : AgentState → UserDb → result (list message * UserDb))
    st db n' st' db' :
  graph_step model executor agent st db = Ok (n', st', db') →
  ∃ r, st' = replied st r ∧ db' = db ∧
       (n' = update_tool_call ∧ reply_tool_calls r ≠ [] ∨
        n' = END ∧ reply_tool_calls r = []).
Proof.
  unfold graph_step, run_node. intros H.
  destruct (call_model model st) as [upd|e] eqn:E; simpl in H; [|discriminate].
  apply call_model_Ok in E as (r & _ & ->).
  exists r. unfold next_node, tools_condition, apply_update in H. simpl in H.
  rewrite last_snoc in H. destruct r as [c [|tc rest] i]; simpl in H;
    injection H as <- <- <-; (split; [reflexivity|]); (split; [reflexivity|]).
  - by right.
  - by left.
Qed.

(** Whenever the router sends a reply down the tool branch, ENRICH succeeds,
    and the state the tool node is entered with has as latest record an
    assistant record with exactly one tool call, whose ["user_id"] argument is
    the [user_id] of the state.  Two records have been added to the history
    and the durable store is untouched. *)
Theorem routed_call_is_enriched
    (model : list message → result Reply)
    (executor : AgentState → UserDb → result (list message * UserDb))
    (st st1 : AgentState) (db db1 : UserDb) :
  graph_step model executor agent st db = Ok (update_tool_call, st1, db1) →
  ∃ st2 c tc i,
    graph_step model executor update_tool_call st1 db1 = Ok (tools, st2, db) ∧
    last (messages st2) = Some (AIMessage c [tc] i) ∧
    tc_args tc !! "user_id" = Some (PStr (user_id st)) ∧
    length (messages st2) = length (messages st) + 2 ∧
    user_name st2 = user_name st.
Proof.
  intros H. apply agent_step_Ok in H as (r & -> & -> & [[_ Htc]|[? _]]); [|discriminate].
  destruct r as [c [|tc rest] i]; [done|]. clear Htc.
  destruct st as [ms name uid]. unfold replied, reply_message. simpl.
  eexists _, c, (set_arg tc "user_id" (PStr uid)), i. split.
  - apply enrich_graph_step, enrich_step_snoc.
  - simpl. rewrite last_app. simpl. split; [done|].
    split; [apply lookup_insert_eq|]. split; [|done].
    rewrite length_app. simpl. lia.
Qed.

Lemma routed_call_is_enriched_witness :
  ∃ st2 tc,
    graph_step scripted_model tool_node update_tool_call enrich_state ∅
      = Ok (tools, st2, ∅) ∧
    latest_tool_call st2 = Some tc ∧
    tc_args tc !! "user_id" = Some (PStr "user_John").
Proof.
  destruct (routed_call_is_enriched scripted_model tool_node run1_state enrich_state
              ∅ ∅ eq_refl) as (st2 & c & tc & i & H1 & H2 & H3 & _).
  exists st2, tc. split; [exact H1|]. split; [|exact H3].
  unfold latest_tool_call. by rewrite H2.
Defined.

(** A run that starts at a node and finishes normally ended at the agent, and
    the latest record of its state is an assistant record without tool calls:
    the reply. *)
Theorem finished_run_ends_with_plain_reply
    (model : list message → result Reply)
    (executor : AgentState → UserDb → result (list message * UserDb))
    (fuel : nat) (n : node) (st : AgentState) (db : UserDb) :
  n ≠ END →
  run_outcome (run_from model executor fuel n st db) = Finished →
  last (run_trace (run_from model executor fuel n st db)) = Some agent ∧
  ∃ c i, last (messages (run_state (run_from model executor fuel n st db)))
         = Some (AIMessage c [] i).
Proof.
  revert n st db. induction fuel as [|fuel IH]; intros n st db Hn Hfin.
  - destruct n; simpl in Hfin; done.
  - rewrite (run_from_unfold model executor fuel n st db Hn) in Hfin |- *.
    destruct (graph_step model executor n st db) as [[[n' st'] db']|e] eqn:Hstep;
      simpl in Hfin |- *; [|discriminate].
    destruct (decide (n' = END)) as [->|Hn'].
    + rewrite run_from_END. simpl.
      destruct (graph_step_frame model executor _ _ _ _ _ _ Hstep)
        as (_ & _ & _ & _ & Hnext).
      assert (n = agent) as ->.
      { destruct n; simpl in Hstep; try done;
          unfold graph_step in Hstep;
          destruct (run_node _ _ _ st db) as [[? ?]|]; simpl in Hstep; discriminate. }
      split; [done|].
      apply agent_step_Ok in Hstep as (r & -> & _ & [[? _]|[_ Htc]]); [discriminate|].
      exists (reply_content r), (reply_id r). simpl.
      rewrite last_snoc. unfold reply_message. by rewrite Htc.
    + destruct (IH n' st' db' Hn' Hfin) as [Hlast Hreply].
      split; [|exact Hreply].
      destruct (run_trace (run_from model executor fuel n' st' db')); [discriminate|].
      exact Hlast.
Qed.

Lemma finished_run_ends_with_plain_reply_witness :
  ∃ c i, last (messages (run_state (invoke scripted_model tool_node run1_state ∅)))
         = Some (AIMessage c [] i).
Proof.
  exact (proj2 (finished_run_ends_with_plain_reply scripted_model tool_node
                  recursion_limit agent run1_state ∅ ltac:(discriminate) eq_refl)).
Defined.

(** ** Directives and names *)

Lemma string_length_app (s t : string) :
  String.length (s +:+ t) = String.length s + String.length t.
Proof. induction s as [|a s IH]; simpl; [done|]. by rewrite IH. Qed.

Lemma string_app_same_length_inj (a b x y : string) :
  String.length a = String.length b → a +:+ x = b +:+ y → a = b.
Proof.
  revert b. induction a as [|c a IH]; intros [|d b] Hlen Heq; simpl in *;
    try done.
  injection Heq as -> Heq. f_equal. apply IH; [lia|done].
Qed.

(** The directive tells the two branches apart and, for names given as
    non-empty strings, tells the names apart: a known name never yields the
    directive for an unknown name, and two different names never yield the
    same directive. *)
Theorem system_prompt_tells_names_apart :
  (∀ name, truthy name = true → get_system_prompt name ≠ get_system_prompt PNone) ∧
  (∀ a b, a ≠ EmptyString → b ≠ EmptyString →
          get_system_prompt (PStr a) = get_system_prompt (PStr b) → a = b).
Proof.
  split.
  - intros name Hname. unfold get_system_prompt. rewrite Hname. simpl.
    intros H. apply (inj (String.append base_prompt)) in H.
    unfold known_name_suffix, unknown_name_suffix in H. simpl in H. discriminate H.
  - intros a b Ha Hb. unfold get_system_prompt.
    destruct a as [|ca a]; [done|]. destruct b as [|cb b]; [done|]. simpl.
    intros H. apply (inj (String.append base_prompt)) in H.
    unfold known_name_suffix in H.
    apply (inj (String.append " You know the user's name is ")) in H.
    apply (string_app_same_length_inj _ _ _ _) in H; [done|].
    apply (f_equal String.length) in H. rewrite !string_length_app in H. lia.
Qed.

Lemma system_prompt_tells_names_apart_witness :
  get_system_prompt (PStr "John") ≠ get_system_prompt PNone.
Proof.
  exact (proj1 system_prompt_tells_names_apart (PStr "John") eq_refl).
Defined.

(** ** The tool call on its way through ENRICH, EXECUTE and SYNC *)

(** The row a remember-name call writes is keyed by the [user_id] of the state,
    whatever identifier the model put in the call: once ENRICH has run, the
    tool node writes the name under the state's [user_id] and leaves the row
    of every other user, the one the model named included, as it was. *)
Theorem model_supplied_id_is_never_written
    (st : AgentState) c tc rest i (name : string) (db : UserDb) :
  last (messages st) = Some (AIMessage c (tc :: rest) i) →
  tc_name tc = remember_name_tool →
  tc_args tc !! "name" = Some (PStr name) →
  ∃ st2 out,
    enrich_step st = Ok st2 ∧
    tool_node st2 db = Ok (out, persist_user_name_to_db (user_id st) name db) ∧
    (∀ uid', uid' ≠ user_id st →
       get_user_name (persist_user_name_to_db (user_id st) name db) uid'
       = get_user_name db uid').
Proof.
  intros Hlast Hname Harg.
  destruct (last_snoc_split _ _ Hlast) as [ms Hms].
  destruct st as [msgs uname uid]. simpl in *. subst msgs.
  rewrite enrich_step_snoc. eexists _, _. split; [reflexivity|]. split.
  - apply tool_node_remember; done.
  - intros uid' Hne. unfold get_user_name, persist_user_name_to_db.
    by rewrite lookup_insert_ne.
Qed.

Lemma model_supplied_id_is_never_written_witness :
  ∃ st2 out db',
    enrich_step spoofed_state = Ok st2 ∧
    tool_node st2 ∅ = Ok (out, db') ∧
    get_user_name db' "user_John" = PStr "John" ∧
    get_user_name db' "user_Jane" = PNone.
Proof.
  destruct (model_supplied_id_is_never_written spoofed_state EmptyString spoofed_call
              [] (Some "run-1") "John" ∅ eq_refl eq_refl eq_refl)
    as (st2 & out & H1 & H2 & H3).
  exists st2, out, (persist_user_name_to_db "user_John" "John" ∅).
  split; [exact H1|]. split; [exact H2|]. split; [reflexivity|].
  exact (H3 "user_Jane" ltac:(discriminate)).
Defined.

(** SYNC finds the call by position, two records from the end.  When the tool
    node has appended exactly one record after the enriched call, SYNC takes
    the name from that call; when it has appended two, SYNC looks at the first
    of them and raises, since a tool-result record has no tool calls. *)
Theorem sync_counts_one_tool_record
    (st : AgentState) c tc i (v : pyval) :
  last (messages st) = Some (AIMessage c [tc] i) →
  tc_name tc = remember_name_tool →
  tc_args tc !! "name" = Some v →
  (∀ m, sync_step (apply_update st (messages_update [m])) =
        Ok (mkState (messages st ++ [m]) v (user_id st))) ∧
  (∀ content1 id1 m2,
     sync_step (apply_update st (messages_update [ToolMessage content1 id1; m2])) =
     Err (AttributeError "tool_calls")).
Proof.
  intros Hlast Hname Harg.
  destruct (last_snoc_split _ _ Hlast) as [ms Hms].
  destruct st as [msgs uname uid]. simpl in *. subst msgs. split.
  - intros m. unfold sync_step, update_user_name_in_state, apply_update. simpl.
    rewrite <- app_assoc. simpl.
    rewrite neg_index_app_r by (simpl; lia). simpl.
    rewrite decide_True by done. unfold getitem. rewrite Harg. reflexivity.
  - intros content1 id1 m2.
    unfold sync_step, update_user_name_in_state, apply_update. simpl.
    rewrite neg_index_app_r by (simpl; lia). reflexivity.
Qed.

Lemma sync_counts_one_tool_record_witness :
  sync_step
    (apply_update
       (mkState [HumanMessage "Hi, my name is John.";
                 AIMessage EmptyString [john_call_enriched] (Some "run-1")]
                PNone "user_John")
       (messages_update [ToolMessage "saved" (Some "call_1");
                         ToolMessage "saved again" (Some "call_1")]))
  = Err (AttributeError "tool_calls").
Proof.
  exact (proj2 (sync_counts_one_tool_record
                  (mkState [HumanMessage "Hi, my name is John.";
                            AIMessage EmptyString [john_call_enriched] (Some "run-1")]
                           PNone "user_John")
                  EmptyString john_call_enriched (Some "run-1") (PStr "John")
                  eq_refl eq_refl eq_refl)
           "saved" (Some "call_1") (ToolMessage "saved again" (Some "call_1"))).
Defined.
